(** * Voxel carving (src/rendering/voxel_carving.cpp)

    A shallow embedding of [ret::rendering::VoxelCarving]: the bounding-volume
    parameterizer, the dense voxel field with its running-minimum update, the
    surface-normal computation and the export precondition.

    Conventions of the embedding:
    - [float] is IEEE-754 binary32 ([spec_float] at precision 24 and maximal
      exponent 128), every operation rounded to nearest-even once, as a build
      that evaluates [float] expressions in [float] and does not fuse
      multiply-add does; [std::abs] is the [float] overload;
    - [std::size_t] is a 64-bit unsigned integer, carried as [N] with the
      wrap-around of every multiplication and addition written out;
    - reading or writing [vox_array_] outside its allocation is undefined
      behaviour in the source; the model returns [None] there;
    - [assert] is modelled as compiled in (no [NDEBUG]);
    - the camera, the image container, the projection helpers, the distance
      transform and the marching-cubes extractor live outside this file and
      are taken as an interface ([Collaborators]). *)

From Stdlib Require Import ZArith NArith Lia SpecFloat String.
From stdpp Require Import base option list.

Open Scope Z_scope.

(** ** binary32 arithmetic *)

Module F32.

Abbreviation float := spec_float.

Definition prec : Z := 24.
Definition emax : Z := 128.

Definition add : float -> float -> float := SFadd prec emax.
Definition sub : float -> float -> float := SFsub prec emax.
Definition mul : float -> float -> float := SFmul prec emax.
Definition div : float -> float -> float := SFdiv prec emax.
Definition abs : float -> float := SFabs.
Definition opp : float -> float := SFopp.
Definition ltb : float -> float -> bool := SFltb.
Definition leb : float -> float -> bool := SFleb.
Definition eqb : float -> float -> bool := SFeqb.

(** Conversion of an integer to [float] (round to nearest, ties to even). *)
Definition of_Z (z : Z) : float := binary_normalize prec emax z 0 false.

(** The [float] nearest to the decimal literal [num/den]: both integers are
    small enough to be exact, and the division is correctly rounded. *)
Definition lit (num den : Z) : float := div (of_Z num) (of_Z den).

Definition zero : float := S754_zero false.
Definition one : float := Eval vm_compute in of_Z 1.
Definition two : float := Eval vm_compute in of_Z 2.
Definition minus_one : float := Eval vm_compute in of_Z (-1).

(** [std::numeric_limits<float>::max()] *)
Definition FLT_MAX : float := Eval vm_compute in SFmax_float prec emax.

Definition is_nan (x : float) : bool :=
  match x with S754_nan => true | _ => false end.

Definition is_zero (x : float) : bool :=
  match x with S754_zero _ => true | _ => false end.

(** Neither an infinity nor a NaN. *)
Definition is_finite (x : float) : bool :=
  match x with S754_zero _ | S754_finite _ _ _ => true | _ => false end.

(** The value is one a binary32 variable can hold (canonical mantissa and
    exponent in range). *)
Definition valid (x : float) : bool := valid_binary prec emax x.

(** [std::min(a, b)]: returns [b] when [b < a], otherwise [a]. *)
Definition std_min (a b : float) : float := if ltb b a then b else a.

End F32.

Import F32.

(** ** [std::size_t] *)

Module SizeT.

Definition modulus : N := (2 ^ 64)%N.

Definition wrap (n : N) : N := (n mod modulus)%N.
Definition mul (a b : N) : N := wrap (a * b).
Definition add (a b : N) : N := wrap (a + b).

(** [static_cast<float>(n)] *)
Definition to_float (n : N) : float := F32.of_Z (Z.of_N n).

End SizeT.

(** ** Plain data *)

(** Modelled from the spec: [bb_bounds] is declared outside this file; the
    spec gives it as six scalars (floats) xmin, xmax, ymin, ymax, zmin, zmax. *)
Record bb_bounds : Type := mk_bb_bounds {
  xmin : float; xmax : float;
  ymin : float; ymax : float;
  zmin : float; zmax : float
}.

Record start_params : Type := mk_start_params {
  start_x : float; start_y : float; start_z : float;
  voxel_width : float; voxel_height : float; voxel_depth : float
}.

Record voxel : Type := mk_voxel {
  xpos : float; ypos : float; zpos : float; value : float
}.

(** [vec3f]: the members x, y, z. *)
Record vec3f : Type := mk_vec3f { vx : float; vy : float; vz : float }.

(** [triangle] through its [comp] view: three corner positions. *)
Record triangle : Type := mk_triangle { v1 : vec3f; v2 : vec3f; v3 : vec3f }.

Record PolyData : Type := mk_PolyData {
  getTriangles : list triangle;
  getNormals : list vec3f
}.

Definition PolyData_empty : PolyData := mk_PolyData [] [].

(** ** Bounding-volume parameterizer *)

Definition MARGIN_X : float := Eval vm_compute in F32.lit 6 100.
Definition MARGIN_Y : float := Eval vm_compute in F32.lit 20 100.

(** [VoxelCarving::calcStartParameter]; [voxel_dim_] is the member it reads. *)
Definition calcStartParameter (voxel_dim_ : N) (bbox : bb_bounds) : start_params :=
  let bb_width :=
    F32.mul (F32.abs (F32.sub (xmax bbox) (xmin bbox)))
            (F32.add F32.one (F32.mul F32.two MARGIN_X)) in
  let bb_height :=
    F32.mul (F32.abs (F32.sub (ymax bbox) (ymin bbox)))
            (F32.add F32.one (F32.mul F32.two MARGIN_Y)) in
  let bb_depth := F32.abs (F32.sub (zmax bbox) (zmin bbox)) in
  let offset_x :=
    F32.div (F32.sub bb_width (F32.abs (F32.sub (xmax bbox) (xmin bbox)))) F32.two in
  let offset_y :=
    F32.div (F32.sub bb_height (F32.abs (F32.sub (ymax bbox) (ymin bbox)))) F32.two in
  {| start_x := F32.sub (xmin bbox) offset_x;
     start_y := F32.sub (ymin bbox) offset_y;
     start_z := F32.zero;
     voxel_width := F32.div bb_width (SizeT.to_float voxel_dim_);
     voxel_height := F32.div bb_height (SizeT.to_float voxel_dim_);
     voxel_depth := F32.div bb_depth (SizeT.to_float voxel_dim_) |}.

(** ** Surface normals *)

(** [VoxelCarving::calcSurfaceNormal] *)
Definition calcSurfaceNormal (a b c : vec3f) : vec3f :=
  {| vx := F32.sub (F32.mul (F32.sub (vy b) (vy a)) (F32.sub (vz c) (vz a)))
                   (F32.mul (F32.sub (vy c) (vy a)) (F32.sub (vz b) (vz a)));
     vy := F32.sub (F32.mul (F32.sub (vz b) (vz a)) (F32.sub (vx c) (vx a)))
                   (F32.mul (F32.sub (vx b) (vx a)) (F32.sub (vz c) (vz a)));
     vz := F32.sub (F32.mul (F32.sub (vx b) (vx a)) (F32.sub (vy c) (vy a)))
                   (F32.mul (F32.sub (vx c) (vx a)) (F32.sub (vy b) (vy a))) |}.

(** [VoxelCarving::calcSurfaceNormals]: the range-for loop appends to
    [normals] once per triangle. *)
Definition calcSurfaceNormals (triangles : list triangle) : list vec3f :=
  fold_left
    (fun normals tri =>
       let n := calcSurfaceNormal (v1 tri) (v2 tri) (v3 tri) in
       normals ++ [n])
    triangles [].

(** ** External collaborators *)

(** [cv::Point2f] and [cv::Size] *)
Record Point2f : Type := mk_Point2f { px : float; py : float }.
Record Size : Type := mk_Size { width : Z; height : Z }.

(** Arguments of [mc::MarchingCubes::setParams], in call order. *)
Record mc_params : Type := mk_mc_params {
  mc_start_1 : float; mc_start_2 : float; mc_start_3 : float;
  mc_step_1 : float; mc_step_2 : float; mc_step_3 : float;
  mc_isovalue : float;
  mc_dim_1 : Z; mc_dim_2 : Z; mc_dim_3 : Z
}.

(** What this file consumes from the rest of the project and from OpenCV:
    [Camera::getMask], [Segmentation::createDistMap], [cv::Mat::size],
    [cv::Mat::at<float>], [cv::Mat::at<uchar>], the helpers [project] and
    [inside] of cv_utils.hpp, and the marching-cubes run
    ([setParams], [execute], [getTriangles]). *)
Class Collaborators : Type := {
  Camera : Type;
  Mat : Type;
  getMask : Camera -> Mat;
  createDistMap : Mat -> Mat;
  Mat_size : Mat -> Size;
  at_float : Mat -> Point2f -> float;
  at_uchar : Mat -> Point2f -> N;
  project : Camera -> voxel -> Point2f;
  inside : Point2f -> Size -> bool;
  marching_cubes : mc_params -> list float -> list triangle
}.

(** ** The carving object *)

Record VoxelCarving : Type := mk_VoxelCarving {
  voxel_dim_ : N;
  voxel_slice_ : N;
  voxel_size_ : N;
  vox_array_ : list float;
  visual_hull_ : PolyData;
  params_ : start_params
}.

(** [VoxelCarving::VoxelCarving]: the members in initialiser order (the class
    declaration is outside this file; [voxel_dim_] is taken to be declared
    before [params_], whose initialiser reads it), then the [std::fill_n] of
    the whole buffer.  The allocation is taken to succeed. *)
Definition VoxelCarving_new (bbox : bb_bounds) (voxel_dim : N) : VoxelCarving :=
  let voxel_slice := SizeT.mul voxel_dim voxel_dim in
  let voxel_size := SizeT.mul (SizeT.mul voxel_dim voxel_dim) voxel_dim in
  {| voxel_dim_ := voxel_dim;
     voxel_slice_ := voxel_slice;
     voxel_size_ := voxel_size;
     vox_array_ := replicate (N.to_nat voxel_size) F32.FLT_MAX;
     visual_hull_ := PolyData_empty;
     params_ := calcStartParameter voxel_dim bbox |}.

(** [VoxelCarving::calcVoxelPosInCamViewFrustum] *)
Definition calcVoxelPosInCamViewFrustum (p : start_params) (i j k : N) : voxel :=
  {| xpos := F32.add (start_x p) (F32.mul (SizeT.to_float k) (voxel_width p));
     ypos := F32.add (start_y p) (F32.mul (SizeT.to_float j) (voxel_height p));
     zpos := F32.add (start_z p) (F32.mul (SizeT.to_float i) (voxel_depth p));
     value := F32.one |}.

(** [for (std::size_t t = 0; t < n; ++t) body], threading the state and
    stopping at the first undefined step. *)
Fixpoint for_loop_from {S : Type} (count : nat) (t : N)
    (body : N -> S -> option S) (s : S) : option S :=
  match count with
  | O => Some s
  | Datatypes.S count' =>
      match body t s with
      | Some s' => for_loop_from count' (N.succ t) body s'
      | None => None
      end
  end.

Definition for_loop {S : Type} (n : N) (body : N -> S -> option S) (s : S) : option S :=
  for_loop_from (N.to_nat n) 0%N body s.

Section Carving.
Context `{Collaborators}.

(** Lines 67-73 of [carve]: the distance one camera contributes for the
    image coordinate [coord]. *)
Definition contributed_distance (Mask DistImage : Mat) (img_size : Size)
    (coord : Point2f) : float :=
  let dist := F32.minus_one in
  if inside coord img_size then
    let dist := at_float DistImage coord in
    if (at_uchar Mask coord =? 0)%N then F32.mul dist F32.minus_one else dist
  else dist.

(** [k + j * voxel_dim_ + i * voxel_slice_] in [std::size_t] arithmetic. *)
Definition linear_index (o : VoxelCarving) (i j k : N) : N :=
  SizeT.add (SizeT.add k (SizeT.mul j (voxel_dim_ o))) (SizeT.mul i (voxel_slice_ o)).

(** Body of the innermost loop of [carve]. *)
Definition carve_voxel (cam : Camera) (Mask DistImage : Mat) (img_size : Size)
    (o : VoxelCarving) (i j k : N) (arr : list float) : option (list float) :=
  let v := calcVoxelPosInCamViewFrustum (params_ o) i j k in
  let coord := project cam v in
  let dist := contributed_distance Mask DistImage img_size coord in
  let idx := N.to_nat (linear_index o i j k) in
  match arr !! idx with
  | Some cur => Some (if F32.ltb dist cur then <[idx := dist]> arr else arr)
  | None => None
  end.

(** [VoxelCarving::carve] *)
Definition carve (o : VoxelCarving) (cam : Camera) : option VoxelCarving :=
  let Mask := getMask cam in
  let DistImage := createDistMap Mask in
  let img_size := Mat_size Mask in
  match
    for_loop (voxel_dim_ o) (fun i =>
      for_loop (voxel_dim_ o) (fun j =>
        for_loop (voxel_dim_ o) (fun k =>
          carve_voxel cam Mask DistImage img_size o i j k)))
      (vox_array_ o)
  with
  | Some arr =>
      Some {| voxel_dim_ := voxel_dim_ o;
              voxel_slice_ := voxel_slice_ o;
              voxel_size_ := voxel_size_ o;
              vox_array_ := arr;
              visual_hull_ := visual_hull_ o;
              params_ := params_ o |}
  | None => None
  end.

(** One [carve] call per camera of the list, in list order. *)
Fixpoint carve_all (o : VoxelCarving) (cams : list Camera) : option VoxelCarving :=
  match cams with
  | [] => Some o
  | cam :: rest =>
      match carve o cam with
      | Some o' => carve_all o' rest
      | None => None
      end
  end.

(** The distance camera [cam] contributes to the voxel at grid coordinates
    [(i, j, k)]: lines 57-59 and 65-73 of [carve] for that voxel. *)
Definition voxel_distance (p : start_params) (cam : Camera) (i j k : N) : float :=
  let Mask := getMask cam in
  contributed_distance Mask (createDistMap Mask) (Mat_size Mask)
    (project cam (calcVoxelPosInCamViewFrustum p i j k)).

(** [static_cast<int>] of a [std::size_t] (two's-complement, 32 bits). *)
Definition size_t_to_int (n : N) : Z :=
  (Z.of_N n + 2 ^ 31) mod 2 ^ 32 - 2 ^ 31.

(** [VoxelCarving::createVisualHull]: returns the hull and the object with
    its [visual_hull_] member replaced. *)
Definition createVisualHull (o : VoxelCarving) : PolyData * VoxelCarving :=
  let voxel_dim := size_t_to_int (voxel_dim_ o) in
  let p := params_ o in
  let triangles :=
    marching_cubes
      (mk_mc_params (start_x p) (start_z p) (start_y p)
                    (voxel_width p) (voxel_depth p) (voxel_height p)
                    F32.zero voxel_dim voxel_dim voxel_dim)
      (vox_array_ o) in
  let hull := mk_PolyData triangles (calcSurfaceNormals triangles) in
  (hull, {| voxel_dim_ := voxel_dim_ o;
            voxel_slice_ := voxel_slice_ o;
            voxel_size_ := voxel_size_ o;
            vox_array_ := vox_array_ o;
            visual_hull_ := hull;
            params_ := params_ o |}).

End Carving.

(** Outcome of [exportToDisk]: the failed [assert] aborts the process;
    otherwise the call made to [saveASOBJ]. *)
Inductive export_outcome : Type :=
  | AssertionFailure
  | SavedAsOBJ (path : string) (triangles : list triangle) (normals : list vec3f).

(** [VoxelCarving::exportToDisk] *)
Definition exportToDisk (o : VoxelCarving) : export_outcome :=
  if (0 <? length (getTriangles (visual_hull_ o)))%nat then
    SavedAsOBJ "export.obj" (getTriangles (visual_hull_ o)) (getNormals (visual_hull_ o))
  else AssertionFailure.

(** ** Invariants and views used by the statements *)

(** [voxel_dim^3] is representable in [std::size_t]. *)
Definition fits (voxel_dim : N) : Prop :=
  (voxel_dim * voxel_dim * voxel_dim < SizeT.modulus)%N.

(** The state of an object between method calls: the three size members are
    the ones the constructor computed and the buffer has [voxel_size_] cells. *)
Definition consistent (o : VoxelCarving) : Prop :=
  fits (voxel_dim_ o) /\
  voxel_slice_ o = (voxel_dim_ o * voxel_dim_ o)%N /\
  voxel_size_ o = (voxel_dim_ o * voxel_dim_ o * voxel_dim_ o)%N /\
  length (vox_array_ o) = N.to_nat (voxel_size_ o).

(** Grid coordinates of the cell at linear position [m]. *)
Definition grid_i (d m : N) : N := (m / (d * d))%N.
Definition grid_j (d m : N) : N := ((m / d) mod d)%N.
Definition grid_k (d m : N) : N := (m mod d)%N.

(** The running-minimum update of the cell at linear position [m], written
    per cell: what one [carve] call is shown to do to the whole buffer. *)
Definition carved_cell `{Collaborators} (o : VoxelCarving) (cam : Camera)
    (m : nat) (cur : float) : float :=
  let d := voxel_dim_ o in
  let n := N.of_nat m in
  F32.std_min cur (voxel_distance (params_ o) cam (grid_i d n) (grid_j d n) (grid_k d n)).

(** Loop invariant of [carve]: the cells before linear position [b] hold
    their updated value, the others still hold the value at entry. *)
Definition carved_upto `{Collaborators} (o : VoxelCarving) (cam : Camera)
    (b : N) (arr : list float) : Prop :=
  length arr = length (vox_array_ o) /\
  forall m : nat,
    arr !! m = if (N.of_nat m <? b)%N
               then carved_cell o cam m <$> (vox_array_ o !! m)
               else vox_array_ o !! m.

(** The cell at linear position [m] after one [carve] call per camera of
    [cams], in list order, starting from the value [cur]. *)
Definition running_min `{Collaborators} (o : VoxelCarving) (cams : list Camera)
    (m : nat) (cur : float) : float :=
  fold_left (fun v cam => carved_cell o cam m v) cams cur.

Definition with_vox_array (o : VoxelCarving) (arr : list float) : VoxelCarving :=
  {| voxel_dim_ := voxel_dim_ o;
     voxel_slice_ := voxel_slice_ o;
     voxel_size_ := voxel_size_ o;
     vox_array_ := arr;
     visual_hull_ := visual_hull_ o;
     params_ := params_ o |}.

(** ** A small concrete set of collaborators, for running the model

    A camera looks along the depth axis: a voxel projects to its own
    (xpos, ypos).  Its image has one mask value and one distance value at
    every pixel.  The extractor returns one fixed triangle. *)
(** The triangle (0,0,0), (1,0,0), (0,1,0). *)
Definition unit_triangle : triangle :=
  mk_triangle (mk_vec3f F32.zero F32.zero F32.zero)
              (mk_vec3f F32.one F32.zero F32.zero)
              (mk_vec3f F32.zero F32.one F32.zero).

Record toy_image : Type := mk_toy_image {
  toy_size : Size; toy_mask : N; toy_distance : float
}.

Definition toy_inside (p : Point2f) (s : Size) : bool :=
  F32.leb F32.zero (px p) && F32.ltb (px p) (F32.of_Z (width s)) &&
  F32.leb F32.zero (py p) && F32.ltb (py p) (F32.of_Z (height s)).

#[local] Instance toy : Collaborators := {|
  Camera := toy_image;
  Mat := toy_image;
  getMask := fun cam => cam;
  createDistMap := fun m => m;
  Mat_size := toy_size;
  at_float := fun m _ => toy_distance m;
  at_uchar := fun m _ => toy_mask m;
  project := fun _ v => mk_Point2f (xpos v) (ypos v);
  inside := toy_inside;
  marching_cubes := fun _ _ => [unit_triangle]
|}.

Definition bbox10 (z0 z1 : float) : bb_bounds :=
  mk_bb_bounds (F32.of_Z 0) (F32.of_Z 10) (F32.of_Z 0) (F32.of_Z 10) z0 z1.

Definition bbox_10_20 : bb_bounds :=
  mk_bb_bounds (F32.of_Z 10) (F32.of_Z 20) (F32.of_Z 10) (F32.of_Z 20)
               (F32.of_Z 0) (F32.of_Z 10).

Definition bbox_reversed : bb_bounds :=
  mk_bb_bounds (F32.of_Z 10) (F32.of_Z 0) (F32.of_Z 5) (F32.of_Z 5)
               (F32.of_Z 3) (F32.of_Z 1).

Definition cam_fg (d : float) : toy_image := mk_toy_image (mk_Size 100 100) 255 d.
Definition cam_bg (d : float) : toy_image := mk_toy_image (mk_Size 100 100) 0 d.

(** [x] is a zero, a finite value or an infinity with sign bit [s]. *)
Definition signed_as (s : bool) (x : float) : Prop :=
  match x with
  | S754_zero s' | S754_infinity s' | S754_finite s' _ _ => s' = s
  | S754_nan => False
  end.

(** All six coordinates of the box are finite numbers. *)
Definition bbox_finite (bbox : bb_bounds) : bool :=
  F32.is_finite (xmin bbox) && F32.is_finite (xmax bbox) &&
  F32.is_finite (ymin bbox) && F32.is_finite (ymax bbox) &&
  F32.is_finite (zmin bbox) && F32.is_finite (zmax bbox).

(** Position of a [float] in the order [<] compares by: class first, then
    exponent, then mantissa, mirrored for negative values.  NaN is given the
    position of zero and is excluded by the lemmas that use the rank. *)
Definition rank (x : float) : Z * Z * Z :=
  match x with
  | S754_infinity true => (-2, 0, 0)
  | S754_finite true m e => (-1, - e, - Z.pos m)
  | S754_zero _ | S754_nan => (0, 0, 0)
  | S754_finite false m e => (1, e, Z.pos m)
  | S754_infinity false => (2, 0, 0)
  end.

Definition lex_lt (a b : Z * Z * Z) : Prop :=
  let '(a1, a2, a3) := a in
  let '(b1, b2, b3) := b in
  a1 < b1 \/ (a1 = b1 /\ (a2 < b2 \/ (a2 = b2 /\ a3 < b3))).

(** ** Further views of the code *)

(** The distance camera [cam] contributes to the cell at linear position [m]
    (the distance of the voxel whose cell it is). *)
Definition cell_distance `{Collaborators} (o : VoxelCarving) (cam : Camera) (m : nat) : float :=
  let d := voxel_dim_ o in
  let n := N.of_nat m in
  voxel_distance (params_ o) cam (grid_i d n) (grid_j d n) (grid_k d n).

(** The arguments [createVisualHull] hands to [setParams]. *)
Definition visual_hull_params (o : VoxelCarving) (dim : Z) : mc_params :=
  let p := params_ o in
  mk_mc_params (start_x p) (start_z p) (start_y p)
               (voxel_width p) (voxel_depth p) (voxel_height p)
               F32.zero dim dim dim.

(** The same box given with every minimum and maximum exchanged. *)
Definition bbox_swapped (bbox : bb_bounds) : bb_bounds :=
  mk_bb_bounds (xmax bbox) (xmin bbox) (ymax bbox) (ymin bbox) (zmax bbox) (zmin bbox).

(** [y] is [x] with the sign flipped, or both are zeros. *)
Definition negated_or_zeros (x y : float) : Prop :=
  y = F32.opp x \/ (F32.is_zero x = true /\ F32.is_zero y = true).

Definition zero_or_nan (x : float) : bool := F32.is_zero x || F32.is_nan x.

(** A box that is the single point (3, -7, 2). *)
Definition bbox_point : bb_bounds :=
  mk_bb_bounds (F32.of_Z 3) (F32.of_Z 3) (F32.of_Z (-7)) (F32.of_Z (-7))
               (F32.of_Z 2) (F32.of_Z 2).

(** * Properties *)

(** ** Comparison of binary32 values *)

Section Comparison.

Lemma compare_cont_Eq (p q : positive) : Pos.compare_cont Eq p q = (p ?= q)%positive.
Proof. reflexivity. Qed.

Lemma ltb_rank (x y : float) :
  F32.ltb x y = true <->
  F32.is_nan x = false /\ F32.is_nan y = false /\ lex_lt (rank x) (rank y).
Proof.
  unfold F32.ltb, SFltb, lex_lt.
  destruct x as [sx|sx| |sx mx ex], y as [sy|sy| |sy my ey]; simpl;
    try destruct sx; try destruct sy; simpl;
    try (split; [discriminate | intros (? & ? & ?); (discriminate || lia)]);
    try (split; [intros _; repeat split; lia | reflexivity]).
  - rewrite compare_cont_Eq.
    destruct (Z.compare_spec ex ey); [destruct (Pos.compare_spec mx my)|..]; simpl;
      (split; [first [discriminate | intros _; repeat split; lia]
              | intros (_ & _ & ?); first [reflexivity | lia]]).
  - rewrite compare_cont_Eq.
    destruct (Z.compare_spec ex ey); [destruct (Pos.compare_spec mx my)|..]; simpl;
      (split; [first [discriminate | intros _; repeat split; lia]
              | intros (_ & _ & ?); first [reflexivity | lia]]).
Qed.

Lemma eqb_rank (x y : float) :
  F32.eqb x y = true <->
  F32.is_nan x = false /\ F32.is_nan y = false /\ rank x = rank y.
Proof.
  unfold F32.eqb, SFeqb.
  destruct x as [sx|sx| |sx mx ex], y as [sy|sy| |sy my ey]; simpl;
    try destruct sx; try destruct sy; simpl;
    try (split; [discriminate | intros (? & ? & ?); (discriminate || congruence)]);
    try (split; [intros _; repeat split; congruence | reflexivity]).
  - rewrite compare_cont_Eq.
    destruct (Z.compare_spec ex ey); [destruct (Pos.compare_spec mx my)|..]; simpl;
      (split; [first [discriminate | intros _; repeat split; congruence]
              | intros (_ & _ & E); first [reflexivity | injection E; lia]]).
  - rewrite compare_cont_Eq.
    destruct (Z.compare_spec ex ey); [destruct (Pos.compare_spec mx my)|..]; simpl;
      (split; [first [discriminate | intros _; repeat split; congruence]
              | intros (_ & _ & E); first [reflexivity | injection E; lia]]).
Qed.

Lemma leb_ltb_eqb (x y : float) : F32.leb x y = F32.ltb x y || F32.eqb x y.
Proof.
  unfold F32.leb, F32.ltb, F32.eqb, SFleb, SFltb, SFeqb.
  destruct (SFcompare x y) as [[]|]; reflexivity.
Qed.

Lemma ltb_irrefl (x : float) : F32.ltb x x = false.
Proof.
  destruct (F32.ltb x x) eqn:E; [|reflexivity].
  apply ltb_rank in E as (_ & _ & E). unfold lex_lt in E.
  destruct (rank x) as [[a b] c]. lia.
Qed.

Lemma ltb_trans (x y z : float) :
  F32.ltb x y = true -> F32.ltb y z = true -> F32.ltb x z = true.
Proof.
  intros (Hx & _ & Hxy)%ltb_rank (_ & Hz & Hyz)%ltb_rank.
  apply ltb_rank. repeat split; try assumption.
  unfold lex_lt in *.
  destruct (rank x) as [[a1 a2] a3], (rank y) as [[b1 b2] b3], (rank z) as [[c1 c2] c3].
  lia.
Qed.

Lemma ltb_not_nan_l (x y : float) : F32.ltb x y = true -> F32.is_nan x = false.
Proof. intros (Hx & _)%ltb_rank. exact Hx. Qed.

Lemma ltb_leb (x y : float) : F32.ltb x y = true -> F32.leb x y = true.
Proof. intros E. rewrite leb_ltb_eqb, E. reflexivity. Qed.

Lemma leb_refl (x : float) : F32.is_nan x = false -> F32.leb x x = true.
Proof.
  intros Hx. rewrite leb_ltb_eqb, ltb_irrefl. simpl.
  apply eqb_rank. auto.
Qed.

(** Two values neither of which is below the other compare equal. *)
Lemma not_ltb_eqb (x y : float) :
  F32.is_nan x = false -> F32.is_nan y = false ->
  F32.ltb x y = false -> F32.ltb y x = false -> F32.eqb x y = true.
Proof.
  intros Hx Hy Hxy Hyx. apply eqb_rank. repeat split; try assumption.
  destruct (rank x) as [[a1 a2] a3] eqn:Ex, (rank y) as [[b1 b2] b3] eqn:Ey.
  assert (~ lex_lt (rank x) (rank y)) as N1.
  { intros L. assert (F32.ltb x y = true) by (apply ltb_rank; auto). congruence. }
  assert (~ lex_lt (rank y) (rank x)) as N2.
  { intros L. assert (F32.ltb y x = true) by (apply ltb_rank; auto). congruence. }
  rewrite Ex, Ey in N1, N2. unfold lex_lt in N1, N2.
  assert (a1 = b1 /\ a2 = b2 /\ a3 = b3) as (-> & -> & ->) by lia.
  reflexivity.
Qed.

(** Values that compare equal are the same value, or two zeros (which may
    differ in sign). *)
Lemma eqb_same_or_zeros (x y : float) :
  F32.eqb x y = true -> x = y \/ (F32.is_zero x = true /\ F32.is_zero y = true).
Proof.
  intros (Hx & Hy & E)%eqb_rank.
  destruct x as [sx|sx| |sx mx ex], y as [sy|sy| |sy my ey]; simpl in *;
    try discriminate; try destruct sx; try destruct sy; simpl in *;
    try discriminate; auto;
    injection E; intros; left; f_equal; lia.
Qed.

End Comparison.

(** ** The counted loop *)

Section ForLoop.
Context {S : Type}.
Variable P : N -> S -> Prop.
Variable body : N -> S -> option S.

Lemma for_loop_from_inv (count : nat) (t : N) (s : S) :
  P t s ->
  (forall u s0, (t <= u < t + N.of_nat count)%N -> P u s0 ->
                exists s1, body u s0 = Some s1 /\ P (N.succ u) s1) ->
  exists s', for_loop_from count t body s = Some s' /\ P (t + N.of_nat count)%N s'.
Proof.
  revert t s. induction count as [|c IH]; intros t s Hs Hstep.
  - exists s. split; [reflexivity|]. now replace (t + N.of_nat 0)%N with t by lia.
  - destruct (Hstep t s) as (s1 & E1 & H1); [lia | assumption |].
    destruct (IH (N.succ t) s1) as (s' & E' & H'); [assumption | |].
    + intros u s0 Hu. apply Hstep. lia.
    + exists s'. split; [simpl; now rewrite E1|].
      now replace (t + N.of_nat (Datatypes.S c))%N with (N.succ t + N.of_nat c)%N by lia.
Qed.

Lemma for_loop_inv (n : N) (s : S) :
  P 0%N s ->
  (forall u s0, (u < n)%N -> P u s0 -> exists s1, body u s0 = Some s1 /\ P (N.succ u) s1) ->
  exists s', for_loop n body s = Some s' /\ P n s'.
Proof.
  intros H0 Hstep. unfold for_loop.
  destruct (for_loop_from_inv (N.to_nat n) 0%N s H0) as (s' & E & H').
  - intros u s0 Hu. apply Hstep. lia.
  - exists s'. split; [assumption|]. now replace n with (0 + N.of_nat (N.to_nat n))%N by lia.
Qed.

End ForLoop.

(** ** Index arithmetic *)

Section Index.

Lemma index_bound (d i j k : N) :
  (i < d)%N -> (j < d)%N -> (k < d)%N -> (k + j * d + i * (d * d) < d * d * d)%N.
Proof. intros. nia. Qed.

Lemma linear_index_exact (o : VoxelCarving) (i j k : N) :
  consistent o ->
  (i < voxel_dim_ o)%N -> (j < voxel_dim_ o)%N -> (k < voxel_dim_ o)%N ->
  linear_index o i j k = (k + j * voxel_dim_ o + i * (voxel_dim_ o * voxel_dim_ o))%N.
Proof.
  intros (Hfit & Hslice & _ & _) Hi Hj Hk.
  unfold linear_index, SizeT.add, SizeT.mul, SizeT.wrap. rewrite Hslice.
  unfold fits in Hfit. set (d := voxel_dim_ o) in *.
  pose proof (index_bound d i j k Hi Hj Hk) as Hb.
  rewrite (N.mod_small (j * d)) by nia.
  rewrite (N.mod_small (i * (d * d))) by nia.
  rewrite (N.mod_small (k + j * d)) by nia.
  apply N.mod_small. nia.
Qed.

Lemma grid_of_index (d i j k : N) :
  (i < d)%N -> (j < d)%N -> (k < d)%N ->
  let m := (k + j * d + i * (d * d))%N in
  grid_i d m = i /\ grid_j d m = j /\ grid_k d m = k.
Proof.
  intros Hi Hj Hk m. unfold grid_i, grid_j, grid_k.
  assert (d <> 0%N) as Hd by lia.
  assert (m = k + (j + i * d) * d)%N as E1 by (unfold m; lia).
  assert (m = (k + j * d) + i * (d * d))%N as E2 by (unfold m; lia).
  assert (m / d = j + i * d)%N as Hq.
  { rewrite E1, N.div_add by assumption. rewrite N.div_small by assumption. lia. }
  repeat split.
  - rewrite E2, N.div_add by nia. rewrite N.div_small by nia. lia.
  - rewrite Hq, N.Div0.mod_add. now apply N.mod_small.
  - rewrite E1, N.Div0.mod_add. now apply N.mod_small.
Qed.

(** Every cell of the buffer is the cell of one grid coordinate. *)
Lemma index_of_grid (d m : N) :
  (m < d * d * d)%N ->
  (grid_i d m < d)%N /\ (grid_j d m < d)%N /\ (grid_k d m < d)%N /\
  m = (grid_k d m + grid_j d m * d + grid_i d m * (d * d))%N.
Proof.
  intros Hm. unfold grid_i, grid_j, grid_k.
  assert (d <> 0%N) as Hd by lia.
  pose proof (N.Div0.div_mod m d) as E1.
  pose proof (N.Div0.div_mod (m / d) d) as E2.
  pose proof (N.mod_upper_bound m d Hd).
  pose proof (N.mod_upper_bound (m / d) d Hd).
  assert (m / (d * d) = m / d / d)%N as -> by (symmetry; apply N.Div0.div_div).
  repeat split; try assumption.
  - apply N.Div0.div_lt_upper_bound. apply N.Div0.div_lt_upper_bound. lia.
  - nia.
Qed.

End Index.

(** ** One [carve] call, cell by cell *)

Section CarveLoop.
Context `{Collaborators}.
Variable o : VoxelCarving.
Variable cam : Camera.
Hypothesis Hc : consistent o.

Lemma buffer_length : length (vox_array_ o) = N.to_nat (voxel_dim_ o * voxel_dim_ o * voxel_dim_ o).
Proof. destruct Hc as (_ & _ & Hsize & Hlen). now rewrite Hlen, Hsize. Qed.

Lemma carve_voxel_step (i j k : N) (arr : list float) :
  (i < voxel_dim_ o)%N -> (j < voxel_dim_ o)%N -> (k < voxel_dim_ o)%N ->
  carved_upto o cam (k + j * voxel_dim_ o + i * (voxel_dim_ o * voxel_dim_ o)) arr ->
  exists arr',
    carve_voxel cam (getMask cam) (createDistMap (getMask cam)) (Mat_size (getMask cam))
                o i j k arr = Some arr' /\
    carved_upto o cam (N.succ (k + j * voxel_dim_ o + i * (voxel_dim_ o * voxel_dim_ o))) arr'.
Proof.
  intros Hi Hj Hk [Hlen Hcells].
  unfold carve_voxel. rewrite linear_index_exact by assumption.
  set (idx := (k + j * voxel_dim_ o + i * (voxel_dim_ o * voxel_dim_ o))%N) in *.
  set (n := N.to_nat idx).
  pose proof (index_bound _ i j k Hi Hj Hk) as Hb. fold idx in Hb.
  pose proof buffer_length as HL.
  assert (n < length (vox_array_ o))%nat as Hn by (unfold n; lia).
  destruct (lookup_lt_is_Some_2 (vox_array_ o) n Hn) as [cur Hcur].
  assert (arr !! n = Some cur) as Harr.
  { rewrite Hcells. replace (N.of_nat n <? idx)%N with false; [assumption|].
    symmetry. apply N.ltb_ge. unfold n. lia. }
  rewrite Harr.
  set (dist := contributed_distance _ _ _ _).
  assert (carved_cell o cam n cur = if F32.ltb dist cur then dist else cur) as Hcell.
  { unfold carved_cell, F32.std_min, voxel_distance.
    replace (N.of_nat n) with idx by (unfold n; lia). unfold idx.
    destruct (grid_of_index (voxel_dim_ o) i j k Hi Hj Hk) as (-> & -> & ->).
    reflexivity. }
  eexists. split; [reflexivity|]. split.
  - destruct (F32.ltb dist cur); [rewrite length_insert|]; assumption.
  - intros m. destruct (decide (m = n)) as [->|Hne].
    + replace (N.of_nat n <? N.succ idx)%N with true
        by (symmetry; apply N.ltb_lt; unfold n; lia).
      rewrite Hcur. simpl. rewrite Hcell.
      destruct (F32.ltb dist cur); [|assumption].
      apply list_lookup_insert_eq. lia.
    + replace (N.of_nat m <? N.succ idx)%N with (N.of_nat m <? idx)%N.
      * rewrite <- Hcells.
        destruct (F32.ltb dist cur); [|reflexivity].
        now apply list_lookup_insert_ne.
      * destruct (N.ltb_spec (N.of_nat m) idx), (N.ltb_spec (N.of_nat m) (N.succ idx));
          try reflexivity; unfold n in Hne; lia.
Qed.

Lemma carve_row (i j : N) (arr : list float) :
  (i < voxel_dim_ o)%N -> (j < voxel_dim_ o)%N ->
  carved_upto o cam (j * voxel_dim_ o + i * (voxel_dim_ o * voxel_dim_ o)) arr ->
  exists arr',
    for_loop (voxel_dim_ o)
      (fun k => carve_voxel cam (getMask cam) (createDistMap (getMask cam))
                            (Mat_size (getMask cam)) o i j k) arr = Some arr' /\
    carved_upto o cam (N.succ j * voxel_dim_ o + i * (voxel_dim_ o * voxel_dim_ o)) arr'.
Proof.
  intros Hi Hj Hinv.
  destruct (for_loop_inv
              (fun k a => carved_upto o cam
                            (k + j * voxel_dim_ o + i * (voxel_dim_ o * voxel_dim_ o)) a)
              (fun k => carve_voxel cam (getMask cam) (createDistMap (getMask cam))
                                    (Mat_size (getMask cam)) o i j k)
              (voxel_dim_ o) arr) as (arr' & E & H').
  - exact Hinv.
  - intros k a Hk Ha.
    destruct (carve_voxel_step i j k a Hi Hj Hk Ha) as (a' & Ea & Ha').
    exists a'. split; [assumption|].
    now replace (N.succ k + j * voxel_dim_ o + i * (voxel_dim_ o * voxel_dim_ o))%N
      with (N.succ (k + j * voxel_dim_ o + i * (voxel_dim_ o * voxel_dim_ o))) by lia.
  - exists arr'. split; [assumption|].
    now replace (N.succ j * voxel_dim_ o + i * (voxel_dim_ o * voxel_dim_ o))%N
      with (voxel_dim_ o + j * voxel_dim_ o + i * (voxel_dim_ o * voxel_dim_ o))%N by lia.
Qed.

Lemma carve_slice (i : N) (arr : list float) :
  (i < voxel_dim_ o)%N ->
  carved_upto o cam (i * (voxel_dim_ o * voxel_dim_ o)) arr ->
  exists arr',
    for_loop (voxel_dim_ o) (fun j =>
      for_loop (voxel_dim_ o)
        (fun k => carve_voxel cam (getMask cam) (createDistMap (getMask cam))
                              (Mat_size (getMask cam)) o i j k)) arr = Some arr' /\
    carved_upto o cam (N.succ i * (voxel_dim_ o * voxel_dim_ o)) arr'.
Proof.
  intros Hi Hinv.
  destruct (for_loop_inv
              (fun j a => carved_upto o cam
                            (j * voxel_dim_ o + i * (voxel_dim_ o * voxel_dim_ o)) a)
              (fun j => for_loop (voxel_dim_ o)
                 (fun k => carve_voxel cam (getMask cam) (createDistMap (getMask cam))
                                       (Mat_size (getMask cam)) o i j k))
              (voxel_dim_ o) arr) as (arr' & E & H').
  - exact Hinv.
  - intros j a Hj Ha. exact (carve_row i j a Hi Hj Ha).
  - exists arr'. split; [assumption|].
    now replace (N.succ i * (voxel_dim_ o * voxel_dim_ o))%N
      with (voxel_dim_ o * voxel_dim_ o + i * (voxel_dim_ o * voxel_dim_ o))%N by lia.
Qed.

(** The three nested loops update every cell exactly once, each with the
    distance of its own grid coordinate, and never leave the buffer. *)
Lemma carve_imap :
  carve o cam = Some (with_vox_array o (imap (carved_cell o cam) (vox_array_ o))).
Proof.
  unfold carve.
  destruct (for_loop_inv
              (fun i a => carved_upto o cam (i * (voxel_dim_ o * voxel_dim_ o)) a)
              (fun i => for_loop (voxel_dim_ o) (fun j =>
                 for_loop (voxel_dim_ o)
                   (fun k => carve_voxel cam (getMask cam) (createDistMap (getMask cam))
                                         (Mat_size (getMask cam)) o i j k)))
              (voxel_dim_ o) (vox_array_ o)) as (arr' & E & [Hlen Hcells]).
  - split; [reflexivity|]. intros m. destruct (N.ltb_spec (N.of_nat m) (0 * (voxel_dim_ o * voxel_dim_ o))); [lia | reflexivity].
  - intros i a Hi Ha. exact (carve_slice i a Hi Ha).
  - rewrite E. unfold with_vox_array. do 2 f_equal.
    apply list_eq. intros m. rewrite Hcells, list_lookup_imap.
    destruct (N.ltb_spec (N.of_nat m) (voxel_dim_ o * (voxel_dim_ o * voxel_dim_ o))) as [Hlt|Hge];
      [reflexivity|].
    pose proof buffer_length as HL.
    rewrite (lookup_ge_None_2 (vox_array_ o) m) by lia. reflexivity.
Qed.

End CarveLoop.

(** ** Rounding to binary32 *)

Section Rounding.

Lemma shr_1_m (mrs : shr_record) :
  0 <= shr_m mrs -> shr_m (shr_1 mrs) = shr_m mrs / 2.
Proof.
  destruct mrs as [m r s]; simpl. intros Hm. rewrite <- Z.div2_div.
  destruct m as [|[q|q|]|q]; try reflexivity; lia.
Qed.

Lemma iter_shr_1_m (p : positive) :
  forall mrs, 0 <= shr_m mrs ->
              shr_m (SpecFloat.iter_pos shr_1 p mrs) = shr_m mrs / 2 ^ Z.pos p.
Proof.
  assert (forall q, 0 < 2 ^ Z.pos q) as Hpow by (intros; apply Z.pow_pos_nonneg; lia).
  induction p as [p IH|p IH|]; intros mrs Hm; simpl SpecFloat.iter_pos.
  - assert (0 <= shr_m (shr_1 mrs)) as H1
        by (rewrite shr_1_m by assumption; apply Z.div_pos; lia).
    assert (0 <= shr_m (SpecFloat.iter_pos shr_1 p (shr_1 mrs))) as H2
        by (rewrite IH by assumption; apply Z.div_pos; auto).
    rewrite IH, IH, shr_1_m by assumption.
    pose proof (Hpow p).
    rewrite !Z.div_div by lia. f_equal.
    replace (Z.pos p~1) with (1 + Z.pos p + Z.pos p) by lia.
    rewrite !Z.pow_add_r by lia. lia.
  - assert (0 <= shr_m (SpecFloat.iter_pos shr_1 p mrs)) as H2
        by (rewrite IH by assumption; apply Z.div_pos; auto).
    rewrite IH, IH by assumption.
    pose proof (Hpow p).
    rewrite !Z.div_div by lia. f_equal.
    replace (Z.pos p~0) with (Z.pos p + Z.pos p) by lia.
    rewrite !Z.pow_add_r by lia. lia.
  - now apply shr_1_m.
Qed.

Lemma shr_record_of_loc_m (m : Z) (l : location) : shr_m (shr_record_of_loc m l) = m.
Proof. destruct l as [|[]]; reflexivity. Qed.

Lemma shr_m_nonneg (mrs : shr_record) (e n : Z) :
  0 <= shr_m mrs -> 0 <= shr_m (fst (shr mrs e n)).
Proof.
  intros Hm. destruct n as [|p|p]; simpl; try assumption.
  rewrite iter_shr_1_m by assumption.
  apply Z.div_pos; [assumption | apply Z.pow_pos_nonneg; lia].
Qed.

Lemma round_nearest_even_bounds (mx : Z) (lx : location) :
  mx <= round_nearest_even mx lx <= mx + 1.
Proof. destruct lx as [|[]]; simpl; try destruct (Z.even mx); lia. Qed.

(** Rounding a non-negative mantissa never yields NaN and keeps the sign. *)
Lemma binary_round_aux_signed (s : bool) (mx ex : Z) (lx : location) :
  0 <= mx -> signed_as s (binary_round_aux F32.prec F32.emax s mx ex lx).
Proof.
  intros Hm. unfold binary_round_aux, shr_fexp.
  destruct (shr (shr_record_of_loc mx lx) ex _) as [mrs' e'] eqn:E1.
  destruct (shr (shr_record_of_loc _ loc_Exact) e' _) as [mrs'' e''] eqn:E2.
  assert (0 <= shr_m mrs') as H1.
  { pose proof (f_equal fst E1) as E1'. simpl in E1'. rewrite <- E1'.
    apply shr_m_nonneg. now rewrite shr_record_of_loc_m. }
  assert (0 <= shr_m mrs'') as H2.
  { pose proof (round_nearest_even_bounds (shr_m mrs') (loc_of_shr_record mrs')).
    pose proof (f_equal fst E2) as E2'. simpl in E2'. rewrite <- E2'.
    apply shr_m_nonneg. simpl. lia. }
  destruct (shr_m mrs'') as [|q|q]; simpl; [reflexivity| |lia].
  destruct (Z.leb e'' _); reflexivity.
Qed.

Lemma binary_normalize_signed (m e : Z) :
  exists s, signed_as s (binary_normalize F32.prec F32.emax m e false).
Proof.
  destruct m as [|q|q]; simpl.
  - exists false. reflexivity.
  - exists false. unfold binary_round. destruct (shl_align _ _ _) as [mz ez].
    apply binary_round_aux_signed. lia.
  - exists true. unfold binary_round. destruct (shl_align _ _ _) as [mz ez].
    apply binary_round_aux_signed. lia.
Qed.

Lemma digits2_pos_bounds (p : positive) :
  2 ^ (Z.pos (digits2_pos p) - 1) <= Z.pos p < 2 ^ Z.pos (digits2_pos p).
Proof.
  induction p as [p IH|p IH|]; simpl digits2_pos.
  - rewrite Pos2Z.inj_succ.
    replace (Z.succ (Z.pos (digits2_pos p)) - 1) with (Z.succ (Z.pos (digits2_pos p) - 1)) by lia.
    rewrite !Z.pow_succ_r by lia. lia.
  - rewrite Pos2Z.inj_succ.
    replace (Z.succ (Z.pos (digits2_pos p)) - 1) with (Z.succ (Z.pos (digits2_pos p) - 1)) by lia.
    rewrite !Z.pow_succ_r by lia. lia.
  - simpl. lia.
Qed.

Lemma digits2_pos_le (p : positive) (n : Z) :
  0 <= n -> Z.pos p < 2 ^ n -> Z.pos (digits2_pos p) <= n.
Proof.
  intros Hn Hp. pose proof (digits2_pos_bounds p) as [Hlo _].
  destruct (Z.le_gt_cases (Z.pos (digits2_pos p)) n) as [|Hgt]; [assumption|].
  assert (2 ^ n <= 2 ^ (Z.pos (digits2_pos p) - 1)) by (apply Z.pow_le_mono_r; lia).
  lia.
Qed.

(** One alignment step of a positive mantissa whose exponent is not below
    the smallest one: something is left and the exponent grows by the number
    of bits above the precision, at most. *)
Lemma shr_fexp_positive (q : positive) (e : Z) :
  -149 <= e ->
  0 < shr_m (fst (shr_fexp F32.prec F32.emax (Z.pos q) e loc_Exact)) <= Z.pos q /\
  e <= snd (shr_fexp F32.prec F32.emax (Z.pos q) e loc_Exact)
    <= Z.max e (Z.pos (digits2_pos q) + e - 24).
Proof.
  intros He. unfold shr_fexp. simpl Zdigits2. simpl shr_record_of_loc.
  unfold fexp, emin, F32.prec, F32.emax.
  pose proof (digits2_pos_bounds q) as [Hlo Hhi].
  set (D := Z.pos (digits2_pos q)) in *.
  destruct (Z.max (D + e - 24) (3 - 128 - 24) - e) as [|n|n] eqn:En; simpl; try lia.
  rewrite iter_shr_1_m by (simpl; lia). simpl shr_m.
  assert (Z.pos n = D - 24) as Hn by lia.
  assert (0 < 2 ^ Z.pos n) by (apply Z.pow_pos_nonneg; lia).
  assert (2 ^ Z.pos n <= 2 ^ (D - 1)) by (apply Z.pow_le_mono_r; lia).
  repeat split; try lia.
  - apply Z.div_str_pos. lia.
  - apply Z.div_le_upper_bound; nia.
Qed.

(** A positive integer below 2^64 with a small non-positive exponent rounds
    to a finite, non-zero binary32 value. *)
Lemma binary_round_aux_finite (s : bool) (m : positive) (e : Z) :
  Z.pos m < 2 ^ 64 -> -149 <= e <= 0 ->
  exists m' e', binary_round_aux F32.prec F32.emax s (Z.pos m) e loc_Exact
                = S754_finite s m' e'.
Proof.
  intros Hm He. unfold binary_round_aux.
  pose proof (shr_fexp_positive m e ltac:(lia)) as [[H1 H1'] [H2 H2']].
  destruct (shr_fexp F32.prec F32.emax (Z.pos m) e loc_Exact) as [mrs' e'].
  simpl fst in *. simpl snd in *.
  pose proof (round_nearest_even_bounds (shr_m mrs') (loc_of_shr_record mrs')) as Hr.
  destruct (round_nearest_even (shr_m mrs') (loc_of_shr_record mrs')) as [|q|q]; try lia.
  assert (Z.pos (digits2_pos m) <= 64) by (apply digits2_pos_le; lia).
  assert (Z.pos (digits2_pos q) <= 65).
  { apply digits2_pos_le; [lia|].
    change (2 ^ 65) with 36893488147419103232.
    change (2 ^ 64) with 18446744073709551616 in Hm. lia. }
  pose proof (shr_fexp_positive q e' ltac:(lia)) as [[H3 H3'] [H4 H4']].
  destruct (shr_fexp F32.prec F32.emax (Z.pos q) e' loc_Exact) as [mrs'' e''].
  simpl fst in *. simpl snd in *.
  destruct (shr_m mrs'') as [|q'|q']; try lia.
  replace (Z.leb e'' (F32.emax - F32.prec)) with true.
  - eauto.
  - symmetry. apply Z.leb_le. unfold F32.emax, F32.prec. lia.
Qed.

Lemma iter_xO_pow (p k : positive) : Z.pos (Pos.iter xO p k) = Z.pos p * 2 ^ Z.pos k.
Proof.
  induction k as [|k IH] using Pos.peano_ind.
  - simpl. lia.
  - rewrite Pos.iter_succ, Pos2Z.inj_xO, IH, Pos2Z.inj_succ, Z.pow_succ_r by lia. lia.
Qed.

(** [static_cast<float>] of a positive [std::size_t] is finite and positive. *)
Lemma to_float_finite (d : N) :
  (0 < d < SizeT.modulus)%N -> exists m e, SizeT.to_float d = S754_finite false m e.
Proof.
  intros [Hd0 Hd]. destruct d as [|p]; [lia|].
  assert (Z.pos p < 2 ^ 64) as Hp.
  { change (2 ^ 64) with (Z.of_N SizeT.modulus). lia. }
  unfold SizeT.to_float, F32.of_Z. simpl Z.of_N. simpl binary_normalize.
  unfold binary_round, shl_align.
  pose proof (digits2_pos_bounds p) as [Hlo Hhi].
  unfold fexp, emin, F32.prec, F32.emax.
  set (D := Z.pos (digits2_pos p)) in *.
  destruct (Z.max (D + 0 - 24) (3 - 128 - 24) - 0) as [|k|k] eqn:Ek.
  - apply binary_round_aux_finite; lia.
  - apply binary_round_aux_finite; lia.
  - assert (Z.pos k = 24 - D) as Hk by lia.
    apply binary_round_aux_finite; [|lia].
    rewrite iter_xO_pow, Hk.
    assert (2 ^ D * 2 ^ (24 - D) = 2 ^ 24) as Hpw.
    { rewrite <- Z.pow_add_r by lia. f_equal. lia. }
    assert (0 < 2 ^ (24 - D)) by (apply Z.pow_pos_nonneg; lia).
    change (2 ^ 24) with 16777216 in Hpw. change (2 ^ 64) with 18446744073709551616. nia.
Qed.

End Rounding.

(** ** Signs of results *)

Section Signs.

Lemma abs_signed (s : bool) (x : float) : signed_as s x -> signed_as false (F32.abs x).
Proof. destruct x; simpl; auto. Qed.

Lemma abs_sub_signed (x y : float) :
  F32.is_finite x = true -> F32.is_finite y = true ->
  signed_as false (F32.abs (F32.sub x y)).
Proof.
  intros Hx Hy.
  destruct x as [sx|sx| |sx mx ex], y as [sy|sy| |sy my ey]; try discriminate.
  - destruct sx, sy; reflexivity.
  - reflexivity.
  - reflexivity.
  - unfold F32.sub, SFsub.
    destruct (binary_normalize_signed
                (cond_Zopp sx (Z.pos (fst (shl_align mx ex (Z.min ex ey))))
                 - cond_Zopp sy (Z.pos (fst (shl_align my ey (Z.min ex ey)))))
                (Z.min ex ey)) as [s Hs].
    exact (abs_signed s _ Hs).
Qed.

Lemma mul_signed (a : float) (m : positive) (e : Z) :
  signed_as false a -> signed_as false (F32.mul a (S754_finite false m e)).
Proof.
  destruct a as [s|s| |s ma ea]; simpl; try (intros ->; reflexivity); try tauto.
  intros ->. apply binary_round_aux_signed. lia.
Qed.

Lemma div_signed (a : float) (m : positive) (e : Z) :
  signed_as false a -> signed_as false (F32.div a (S754_finite false m e)).
Proof.
  destruct a as [s|s| |s ma ea]; simpl; try (intros ->; reflexivity); try tauto.
  intros ->. unfold SFdiv_core_binary.
  set (m' := match _ - _ - _ with Z0 => Z.pos ma | Z.pos _ => _ | Z.neg _ => 0 end).
  assert (0 <= m') as Hm'.
  { unfold m'. destruct (_ - _ - _); try lia. apply Z.shiftl_nonneg. lia. }
  pose proof (Z.div_pos m' (Z.pos m) Hm' ltac:(lia)) as Hq.
  unfold Z.div in Hq. destruct (Z.div_eucl m' (Z.pos m)) as [q r].
  now apply binary_round_aux_signed.
Qed.

Lemma signed_nonneg (x : float) : signed_as false x -> F32.leb F32.zero x = true.
Proof. destruct x as [s|s| |s m e]; simpl; try (intros ->; reflexivity); tauto. Qed.

(** [dist *= -1.0f] flips the sign of every binary32 value and changes
    nothing else. *)
Lemma mul_minus_one (x : float) :
  F32.valid x = true -> F32.mul x F32.minus_one = F32.opp x.
Proof.
  destruct x as [s|s| |s m e]; simpl; intros Hv;
    try (destruct s; reflexivity); try reflexivity.
  apply andb_true_iff in Hv as [Hcan Hle].
  apply Z.eqb_eq in Hcan. apply Z.leb_le in Hle.
  unfold F32.mul, F32.minus_one, SFmul.
  rewrite Pos.mul_comm. cbv beta iota delta [Pos.mul].
  unfold binary_round_aux, shr_fexp.
  set (big := Z.pos _).
  assert (fexp F32.prec F32.emax (Zdigits2 big + (e + -23)) - (e + -23) = 23) as E.
  { unfold big. simpl Zdigits2. rewrite !Pos2Z.inj_succ.
    unfold fexp, emin, F32.prec, F32.emax in *. lia. }
  rewrite E. unfold big. simpl shr. simpl round_nearest_even.
  replace (e + -23 + 23) with e by lia.
  simpl Zdigits2. rewrite Hcan, Z.sub_diag. simpl.
  replace (Z.leb e (F32.emax - F32.prec)) with true by (symmetry; now apply Z.leb_le).
  destruct s; reflexivity.
Qed.

End Signs.

(** ** The running minimum of one cell *)

Section RunningMin.

Lemma std_min_cases (a b : float) : F32.std_min a b = a \/ F32.std_min a b = b.
Proof. unfold F32.std_min. destruct (F32.ltb b a); auto. Qed.

Lemma std_min_not_nan (a b : float) :
  F32.is_nan a = false -> F32.is_nan (F32.std_min a b) = false.
Proof.
  intros Ha. unfold F32.std_min. destruct (F32.ltb b a) eqn:E; [|assumption].
  exact (ltb_not_nan_l _ _ E).
Qed.

Lemma std_min_le_l (a b : float) :
  F32.is_nan a = false -> F32.leb (F32.std_min a b) a = true.
Proof.
  intros Ha. unfold F32.std_min. destruct (F32.ltb b a) eqn:E.
  - now apply ltb_leb.
  - now apply leb_refl.
Qed.

Lemma std_min_le_r (a b : float) :
  F32.is_nan a = false -> F32.is_nan b = false -> F32.leb (F32.std_min a b) b = true.
Proof.
  intros Ha Hb. unfold F32.std_min. destruct (F32.ltb b a) eqn:E.
  - now apply leb_refl.
  - rewrite leb_ltb_eqb.
    destruct (F32.ltb a b) eqn:E'; [reflexivity|]. simpl.
    now apply not_ltb_eqb.
Qed.

Lemma std_min_idem (a b : float) : F32.std_min (F32.std_min a b) b = F32.std_min a b.
Proof.
  unfold F32.std_min. destruct (F32.ltb b a) eqn:E.
  - now rewrite ltb_irrefl.
  - now rewrite E.
Qed.

(** If [x < z] and [x] is not below [y], then [y < z]. *)
Lemma ltb_cotrans (x y z : float) :
  F32.ltb x z = true -> F32.is_nan y = false -> F32.ltb x y = false ->
  F32.ltb y z = true.
Proof.
  intros (Hx & Hz & Hxz)%ltb_rank Hy Hxy.
  assert (~ lex_lt (rank x) (rank y)) as N1.
  { intros L. assert (F32.ltb x y = true) by (apply ltb_rank; auto). congruence. }
  apply ltb_rank. repeat split; try assumption.
  unfold lex_lt in *.
  destruct (rank x) as [[a1 a2] a3], (rank y) as [[b1 b2] b3], (rank z) as [[c1 c2] c3].
  lia.
Qed.

(** The fold of [std_min] over a list returns an element that nothing in
    the list is below. *)
Lemma min_fold_spec (ds : list float) :
  forall v, F32.is_nan v = false ->
    let r := fold_left F32.std_min ds v in
    F32.is_nan r = false /\ In r (v :: ds) /\
    forall x, In x (v :: ds) -> F32.ltb x r = false.
Proof.
  induction ds as [|d ds IH]; intros v Hv; simpl.
  - repeat split; auto. intros x [<-|[]]. apply ltb_irrefl.
  - destruct (IH (F32.std_min v d) (std_min_not_nan v d Hv)) as (Hr & Hin & Hmin).
    set (r := fold_left F32.std_min ds (F32.std_min v d)) in *.
    split; [assumption|]. split.
    + destruct Hin as [E|Hin]; [|auto].
      destruct (std_min_cases v d) as [E'|E']; rewrite E' in E; auto.
    + assert (F32.ltb (F32.std_min v d) r = false) as Hm by (apply Hmin; now left).
      intros x [<-|[<-|Hx]]; [| |apply Hmin; now right].
      * unfold F32.std_min in Hm. destruct (F32.ltb d v) eqn:E; [|assumption].
        destruct (F32.ltb v r) eqn:E'; [|reflexivity].
        rewrite (ltb_trans d v r E E') in Hm. discriminate.
      * unfold F32.std_min in Hm. destruct (F32.ltb d v) eqn:E; [assumption|].
        destruct (F32.ltb d r) eqn:E'; [|reflexivity].
        rewrite (ltb_cotrans d v r E' Hv E) in Hm. discriminate.
Qed.

Lemma min_fold_perm (ds1 ds2 : list float) (v : float) :
  F32.is_nan v = false -> Permutation ds1 ds2 ->
  F32.eqb (fold_left F32.std_min ds1 v) (fold_left F32.std_min ds2 v) = true.
Proof.
  intros Hv Hp.
  destruct (min_fold_spec ds1 v Hv) as (Hn1 & Hin1 & Hmin1).
  destruct (min_fold_spec ds2 v Hv) as (Hn2 & Hin2 & Hmin2).
  assert (Permutation (v :: ds1) (v :: ds2)) as Hp' by now constructor.
  apply not_ltb_eqb; try assumption.
  - apply Hmin2. exact (Permutation_in _ Hp' Hin1).
  - apply Hmin1. exact (Permutation_in _ (Permutation_sym Hp') Hin2).
Qed.

End RunningMin.

(** ** The object between calls *)

Section ObjectLife.
Context `{Collaborators}.

Lemma fits_square (d : N) : fits d -> (d * d < SizeT.modulus)%N.
Proof. unfold fits. intros Hd. destruct (N.eq_dec d 0%N) as [->|]; [reflexivity | nia]. Qed.

Lemma new_consistent (bbox : bb_bounds) (d : N) :
  fits d -> consistent (VoxelCarving_new bbox d).
Proof.
  intros Hd. pose proof (fits_square d Hd) as Hsq.
  assert (SizeT.mul d d = (d * d)%N) as Eslice by now apply N.mod_small.
  assert (SizeT.mul (SizeT.mul d d) d = (d * d * d)%N) as Esize
      by (rewrite Eslice; now apply N.mod_small).
  unfold consistent. simpl. rewrite Esize, Eslice, length_replicate. auto.
Qed.

Lemma with_vox_array_consistent (o : VoxelCarving) (arr : list float) :
  consistent o -> length arr = length (vox_array_ o) -> consistent (with_vox_array o arr).
Proof.
  intros (Hfit & Hslice & Hsize & Hlen) Harr.
  unfold consistent. simpl. rewrite Harr. auto.
Qed.

Lemma with_vox_array_same (o : VoxelCarving) : with_vox_array o (vox_array_ o) = o.
Proof. now destruct o. Qed.

(** A sequence of [carve] calls is defined and folds, in every cell, the
    cameras' distances into the cell in call order. *)
Lemma carve_all_cells (cams : list Camera) :
  forall o, consistent o ->
    carve_all o cams = Some (with_vox_array o (imap (running_min o cams) (vox_array_ o))).
Proof.
  induction cams as [|cam rest IH]; intros o Hc; simpl.
  - f_equal. rewrite <- (with_vox_array_same o) at 1. f_equal.
    apply list_eq. intros m. rewrite list_lookup_imap.
    now destruct (vox_array_ o !! m).
  - rewrite (carve_imap o cam Hc).
    rewrite IH by (apply with_vox_array_consistent; [assumption | apply length_imap]).
    f_equal. unfold with_vox_array. simpl. f_equal.
    apply list_eq. intros m. rewrite !list_lookup_imap.
    now destruct (vox_array_ o !! m).
Qed.

Lemma running_min_fold (o : VoxelCarving) (cams : list Camera) (m : nat) (v : float) :
  running_min o cams m v =
  fold_left F32.std_min
    (map (fun cam => voxel_distance (params_ o) cam
                       (grid_i (voxel_dim_ o) (N.of_nat m))
                       (grid_j (voxel_dim_ o) (N.of_nat m))
                       (grid_k (voxel_dim_ o) (N.of_nat m))) cams) v.
Proof.
  unfold running_min. revert v.
  induction cams as [|cam rest IH]; intros v; simpl; [reflexivity|]. now rewrite IH.
Qed.

Lemma running_min_not_nan (o : VoxelCarving) (cams : list Camera) (m : nat) (v : float) :
  F32.is_nan v = false -> F32.is_nan (running_min o cams m v) = false.
Proof.
  intros Hv. rewrite running_min_fold.
  apply (min_fold_spec _ v Hv).
Qed.

End ObjectLife.

(** ** Cells of a fresh and of a carved object *)

Section Cells.
Context `{Collaborators}.

Lemma new_cells (bbox : bb_bounds) (d : N) (m : nat) (v : float) :
  vox_array_ (VoxelCarving_new bbox d) !! m = Some v -> v = F32.FLT_MAX.
Proof. simpl. now intros [-> _]%lookup_replicate. Qed.

Lemma new_length (bbox : bb_bounds) (d : N) :
  fits d -> length (vox_array_ (VoxelCarving_new bbox d)) = N.to_nat (d * d * d).
Proof.
  intros Hd. destruct (new_consistent bbox d Hd) as (_ & _ & Hsize & Hlen).
  now rewrite Hlen, Hsize.
Qed.

Lemma carved_cell_at_index (o : VoxelCarving) (cam : Camera) (i j k : N) (cur : float) :
  consistent o ->
  (i < voxel_dim_ o)%N -> (j < voxel_dim_ o)%N -> (k < voxel_dim_ o)%N ->
  carved_cell o cam (N.to_nat (linear_index o i j k)) cur
    = F32.std_min cur (voxel_distance (params_ o) cam i j k).
Proof.
  intros Hc Hi Hj Hk. unfold carved_cell.
  rewrite N2Nat.id, linear_index_exact by assumption.
  now destruct (grid_of_index (voxel_dim_ o) i j k Hi Hj Hk) as (-> & -> & ->).
Qed.

Lemma FLT_MAX_greatest (x : float) :
  F32.valid x = true -> F32.is_finite x = true -> F32.leb x F32.FLT_MAX = true.
Proof.
  destruct x as [s|s| |s m e]; try discriminate; intros Hv _.
  - reflexivity.
  - destruct s; [reflexivity|].
    apply andb_true_iff in Hv as [Hcan Hle].
    apply Z.eqb_eq in Hcan. apply Z.leb_le in Hle.
    unfold F32.leb, SFleb, F32.FLT_MAX, SFcompare.
    unfold fexp, emin, F32.prec, F32.emax in *.
    destruct (Z.compare_spec e 104) as [->|Hlt|Hgt]; [|reflexivity|lia].
    rewrite compare_cont_Eq.
    destruct (Pos.compare_spec m 16777215) as [E|L|G]; try reflexivity.
    pose proof (digits2_pos_bounds m) as [_ Hhi].
    assert (Z.pos (digits2_pos m) = 24) as E24 by lia.
    rewrite E24 in Hhi. change (2 ^ 24) with 16777216 in Hhi. lia.
Qed.

End Cells.

(** ** Appending one normal per triangle *)

Lemma normals_fold (f : triangle -> vec3f) (l : list triangle) :
  forall acc, fold_left (fun normals tri => normals ++ [f tri]) l acc = acc ++ map f l.
Proof.
  induction l as [|t l IH]; intros acc; simpl.
  - now rewrite app_nil_r.
  - now rewrite IH, <- app_assoc.
Qed.

(** * The claims *)

(** ** Bounding-volume parameterizer *)

(** C1 (as amended).  For the box x, y in [0, 10] and [voxel_dim = 4],
    whatever the box's depth bounds are: [start_x] is -0.6 to float precision
    (the binary32 value -10066328 * 2^-24, strictly between -0.6000002 and
    -0.5999998), [voxel_width] is the binary32 value of 2.8, and [start_z]
    is +0.0. *)
Theorem calcStartParameter_box10 (z0 z1 : float) :
  let p := calcStartParameter 4 (bbox10 z0 z1) in
  start_x p = S754_finite true 10066328 (-24) /\
  F32.ltb (F32.lit (-6000002) 10000000) (start_x p) = true /\
  F32.ltb (start_x p) (F32.lit (-5999998) 10000000) = true /\
  voxel_width p = F32.lit 28 10 /\
  start_z p = F32.zero.
Proof. repeat split; vm_compute; reflexivity. Qed.

(** C1, as stated, fails: on that box [start_x] does not compare equal to
    -0.3; it is below -0.5. *)
Lemma calcStartParameter_box10_start_x_not_minus_0_3 :
  let p := calcStartParameter 4 (bbox10 (F32.of_Z 0) (F32.of_Z 10)) in
  ~ (F32.eqb (start_x p) (F32.lit (-3) 10) = true /\
     F32.eqb (voxel_width p) (F32.lit 28 10) = true /\
     F32.eqb (start_z p) F32.zero = true) /\
  F32.ltb (start_x p) (F32.lit (-5) 10) = true.
Proof.
  split.
  - intros (Hx & _). vm_compute in Hx. discriminate.
  - vm_compute. reflexivity.
Qed.

(** C10.  For a box of finite coordinates, in whatever order, and a positive
    [voxel_dim], the three voxel steps are non-negative: each compares
    [0 <= step], so none is NaN either. *)
Theorem voxel_steps_nonnegative (bbox : bb_bounds) (voxel_dim : N) :
  bbox_finite bbox = true ->
  (0 < voxel_dim < SizeT.modulus)%N ->
  let p := calcStartParameter voxel_dim bbox in
  F32.leb F32.zero (voxel_width p) = true /\
  F32.leb F32.zero (voxel_height p) = true /\
  F32.leb F32.zero (voxel_depth p) = true.
Proof.
  intros Hb Hd.
  unfold bbox_finite in Hb. rewrite !andb_true_iff in Hb.
  destruct Hb as (((((Hx0 & Hx1) & Hy0) & Hy1) & Hz0) & Hz1).
  destruct (to_float_finite voxel_dim Hd) as (m & e & Ed).
  simpl. rewrite Ed.
  repeat split; apply signed_nonneg, div_signed.
  - apply (mul_signed _ 9395241 (-23)). now apply abs_sub_signed.
  - apply (mul_signed _ 11744051 (-23)). now apply abs_sub_signed.
  - now apply abs_sub_signed.
Qed.

(** The theorem at a box given with [xmax < xmin], a zero extent in y and
    reversed depth bounds, for [voxel_dim = 4]. *)
Lemma voxel_steps_nonnegative_witness :
  bbox_finite bbox_reversed = true /\
  (0 < 4 < SizeT.modulus)%N /\
  let p := calcStartParameter 4 bbox_reversed in
  F32.leb F32.zero (voxel_width p) = true /\
  F32.leb F32.zero (voxel_height p) = true /\
  F32.leb F32.zero (voxel_depth p) = true.
Proof.
  assert (bbox_finite bbox_reversed = true) as Hb by reflexivity.
  assert (0 < 4 < SizeT.modulus)%N as Hd by (split; reflexivity).
  split; [exact Hb|]. split; [exact Hd|].
  exact (voxel_steps_nonnegative bbox_reversed 4 Hb Hd).
Defined.

(** ** Voxel field *)

(** C7.  For a dimension whose cube is representable in [std::size_t], the
    constructed field has [voxel_dim^3] cells, each holding [FLT_MAX], the
    largest finite binary32 value. *)
Theorem constructor_fills_FLT_MAX (bbox : bb_bounds) (voxel_dim : N) :
  fits voxel_dim ->
  let o := VoxelCarving_new bbox voxel_dim in
  length (vox_array_ o) = N.to_nat (voxel_dim * voxel_dim * voxel_dim) /\
  (forall m : nat, (m < N.to_nat (voxel_dim * voxel_dim * voxel_dim))%nat ->
                   vox_array_ o !! m = Some F32.FLT_MAX) /\
  (forall x : float, F32.valid x = true -> F32.is_finite x = true ->
                     F32.leb x F32.FLT_MAX = true).
Proof.
  intros Hd o. split; [|split].
  - exact (new_length bbox voxel_dim Hd).
  - intros m Hm. pose proof (new_length bbox voxel_dim Hd) as Hlen.
    destruct (lookup_lt_is_Some_2 (vox_array_ o) m) as [v Hv]; [unfold o; lia|].
    rewrite Hv. f_equal. exact (new_cells bbox voxel_dim m v Hv).
  - exact FLT_MAX_greatest.
Qed.

(** The theorem at [voxel_dim = 4]. *)
Lemma constructor_fills_FLT_MAX_witness :
  fits 4 /\
  let o := VoxelCarving_new (bbox10 F32.zero F32.zero) 4 in
  length (vox_array_ o) = N.to_nat (4 * 4 * 4) /\
  (forall m : nat, (m < N.to_nat (4 * 4 * 4))%nat -> vox_array_ o !! m = Some F32.FLT_MAX) /\
  (forall x : float, F32.valid x = true -> F32.is_finite x = true ->
                     F32.leb x F32.FLT_MAX = true).
Proof.
  assert (fits 4) as Hd by reflexivity.
  split; [exact Hd|].
  exact (constructor_fills_FLT_MAX (bbox10 F32.zero F32.zero) 4 Hd).
Defined.

(** ** Carving *)

(** C5.  In one [carve] call, the voxel at grid coordinates (i, j, k)
    contributes -1.0 when its projection is outside the image; otherwise the
    distance-map sample at the projected pixel, multiplied by -1.0 when the
    mask pixel is zero, which for a binary32 sample is its negation; and the
    voxel's cell becomes [std::min(current, distance)], which is one of the
    two and, NaN aside, [<=] both. *)
Theorem carve_contribution `{Collaborators} (o : VoxelCarving) (cam : Camera) (i j k : N) :
  consistent o ->
  (i < voxel_dim_ o)%N -> (j < voxel_dim_ o)%N -> (k < voxel_dim_ o)%N ->
  let Mask := getMask cam in
  let DistImage := createDistMap Mask in
  let coord := project cam (calcVoxelPosInCamViewFrustum (params_ o) i j k) in
  let dist := voxel_distance (params_ o) cam i j k in
  let idx := N.to_nat (linear_index o i j k) in
  (inside coord (Mat_size Mask) = false -> dist = F32.minus_one) /\
  (inside coord (Mat_size Mask) = true -> at_uchar Mask coord <> 0%N ->
   dist = at_float DistImage coord) /\
  (inside coord (Mat_size Mask) = true -> at_uchar Mask coord = 0%N ->
   dist = F32.mul (at_float DistImage coord) F32.minus_one /\
   (F32.valid (at_float DistImage coord) = true -> dist = F32.opp (at_float DistImage coord))) /\
  exists (o' : VoxelCarving) (cur : float),
    carve o cam = Some o' /\
    vox_array_ o !! idx = Some cur /\
    vox_array_ o' !! idx = Some (F32.std_min cur dist) /\
    (F32.std_min cur dist = cur \/ F32.std_min cur dist = dist) /\
    (F32.is_nan cur = false -> F32.leb (F32.std_min cur dist) cur = true) /\
    (F32.is_nan cur = false -> F32.is_nan dist = false ->
     F32.leb (F32.std_min cur dist) dist = true).
Proof.
  intros Hc Hi Hj Hk Mask DistImage coord dist idx.
  assert (dist = contributed_distance Mask DistImage (Mat_size Mask) coord) as Ed
      by reflexivity.
  unfold contributed_distance in Ed.
  split; [|split; [|split]].
  - intros Hin. now rewrite Hin in Ed.
  - intros Hin Hmask. rewrite Hin in Ed.
    now destruct (N.eqb_spec (at_uchar Mask coord) 0).
  - intros Hin Hmask. rewrite Hin, Hmask in Ed. simpl in Ed.
    split; [assumption|]. intros Hv. rewrite Ed. now apply mul_minus_one.
  - pose proof (index_bound _ i j k Hi Hj Hk) as Hb.
    pose proof (buffer_length o Hc) as HL.
    assert (idx < length (vox_array_ o))%nat as Hidx.
    { unfold idx. rewrite linear_index_exact by assumption. lia. }
    destruct (lookup_lt_is_Some_2 (vox_array_ o) idx Hidx) as [cur Hcur].
    exists (with_vox_array o (imap (carved_cell o cam) (vox_array_ o))), cur.
    split; [now apply carve_imap|]. split; [assumption|]. split.
    + simpl. rewrite list_lookup_imap, Hcur. simpl. f_equal.
      now apply carved_cell_at_index.
    + split; [apply std_min_cases|]. split.
      * apply std_min_le_l.
      * apply std_min_le_r.
Qed.

(** The theorem at the voxel (1, 0, 1) of a 2 x 2 x 2 field. *)
Lemma carve_contribution_witness :
  let o := VoxelCarving_new (bbox10 F32.zero F32.zero) 2 in
  let cam := cam_bg F32.one in
  consistent o /\ (1 < voxel_dim_ o)%N /\ (0 < voxel_dim_ o)%N /\
  let Mask := @getMask toy cam in
  let DistImage := createDistMap Mask in
  let coord := project cam (calcVoxelPosInCamViewFrustum (params_ o) 1 0 1) in
  let dist := voxel_distance (params_ o) cam 1 0 1 in
  let idx := N.to_nat (linear_index o 1 0 1) in
  (inside coord (Mat_size Mask) = false -> dist = F32.minus_one) /\
  (inside coord (Mat_size Mask) = true -> at_uchar Mask coord <> 0%N ->
   dist = at_float DistImage coord) /\
  (inside coord (Mat_size Mask) = true -> at_uchar Mask coord = 0%N ->
   dist = F32.mul (at_float DistImage coord) F32.minus_one /\
   (F32.valid (at_float DistImage coord) = true -> dist = F32.opp (at_float DistImage coord))) /\
  exists (o' : VoxelCarving) (cur : float),
    carve o cam = Some o' /\
    vox_array_ o !! idx = Some cur /\
    vox_array_ o' !! idx = Some (F32.std_min cur dist) /\
    (F32.std_min cur dist = cur \/ F32.std_min cur dist = dist) /\
    (F32.is_nan cur = false -> F32.leb (F32.std_min cur dist) cur = true) /\
    (F32.is_nan cur = false -> F32.is_nan dist = false ->
     F32.leb (F32.std_min cur dist) dist = true).
Proof.
  intros o cam.
  assert (consistent o) as Hc by (repeat split; reflexivity).
  assert (1 < voxel_dim_ o)%N as H1 by reflexivity.
  assert (0 < voxel_dim_ o)%N as H0 by reflexivity.
  split; [exact Hc|]. split; [exact H1|]. split; [exact H0|].
  exact (@carve_contribution toy o cam 1 0 1 Hc H1 H0 H1).
Defined.

(** C6.  In [carve], the voxel at grid coordinates (i, j, k) is the point
    (start_x + k * voxel_width, start_y + j * voxel_height,
    start_z + i * voxel_depth); its [std::size_t] index does not wrap and is
    k + j * voxel_dim + i * voxel_dim^2, inside the field and shared with no
    other grid coordinate; and the cell at that index is the one updated with
    the distance of that point's projection. *)
Theorem voxel_position_and_index `{Collaborators}
    (o : VoxelCarving) (cam : Camera) (i j k : N) :
  consistent o ->
  (i < voxel_dim_ o)%N -> (j < voxel_dim_ o)%N -> (k < voxel_dim_ o)%N ->
  let p := params_ o in
  let d := voxel_dim_ o in
  let v := calcVoxelPosInCamViewFrustum p i j k in
  let idx := (k + j * d + i * (d * d))%N in
  xpos v = F32.add (start_x p) (F32.mul (SizeT.to_float k) (voxel_width p)) /\
  ypos v = F32.add (start_y p) (F32.mul (SizeT.to_float j) (voxel_height p)) /\
  zpos v = F32.add (start_z p) (F32.mul (SizeT.to_float i) (voxel_depth p)) /\
  linear_index o i j k = idx /\
  (N.to_nat idx < length (vox_array_ o))%nat /\
  (forall i' j' k' : N,
     (i' < d)%N -> (j' < d)%N -> (k' < d)%N ->
     (k' + j' * d + i' * (d * d))%N = idx -> i' = i /\ j' = j /\ k' = k) /\
  exists (o' : VoxelCarving) (cur : float),
    carve o cam = Some o' /\
    vox_array_ o !! N.to_nat idx = Some cur /\
    vox_array_ o' !! N.to_nat idx
      = Some (F32.std_min cur
                (contributed_distance (getMask cam) (createDistMap (getMask cam))
                                      (Mat_size (getMask cam)) (project cam v))).
Proof.
  intros Hc Hi Hj Hk p d v idx.
  pose proof (index_bound _ i j k Hi Hj Hk) as Hb.
  pose proof (buffer_length o Hc) as HL.
  pose proof (linear_index_exact o i j k Hc Hi Hj Hk) as Eidx.
  assert (N.to_nat idx < length (vox_array_ o))%nat as Hidx by (unfold idx, d; lia).
  do 3 (split; [reflexivity|]). split; [exact Eidx|]. split; [exact Hidx|]. split.
  - intros i' j' k' Hi' Hj' Hk' E.
    destruct (grid_of_index d i j k Hi Hj Hk) as (Gi & Gj & Gk).
    destruct (grid_of_index d i' j' k' Hi' Hj' Hk') as (Gi' & Gj' & Gk').
    fold idx in Gi, Gj, Gk. rewrite E in Gi', Gj', Gk'.
    repeat split; congruence.
  - destruct (lookup_lt_is_Some_2 (vox_array_ o) (N.to_nat idx) Hidx) as [cur Hcur].
    exists (with_vox_array o (imap (carved_cell o cam) (vox_array_ o))), cur.
    split; [now apply carve_imap|]. split; [assumption|].
    simpl. rewrite list_lookup_imap, Hcur. simpl. f_equal.
    unfold idx, d. rewrite <- Eidx. now apply carved_cell_at_index.
Qed.

(** The theorem at the voxel (1, 0, 1) of a 2 x 2 x 2 field: index 5. *)
Lemma voxel_position_and_index_witness :
  let o := VoxelCarving_new (bbox10 F32.zero F32.zero) 2 in
  let cam := cam_bg F32.one in
  consistent o /\ (1 < voxel_dim_ o)%N /\ (0 < voxel_dim_ o)%N /\
  let p := params_ o in
  let d := voxel_dim_ o in
  let v := calcVoxelPosInCamViewFrustum p 1 0 1 in
  let idx := (1 + 0 * d + 1 * (d * d))%N in
  xpos v = F32.add (start_x p) (F32.mul (SizeT.to_float 1) (voxel_width p)) /\
  ypos v = F32.add (start_y p) (F32.mul (SizeT.to_float 0) (voxel_height p)) /\
  zpos v = F32.add (start_z p) (F32.mul (SizeT.to_float 1) (voxel_depth p)) /\
  linear_index o 1 0 1 = idx /\
  (N.to_nat idx < length (vox_array_ o))%nat /\
  (forall i' j' k' : N,
     (i' < d)%N -> (j' < d)%N -> (k' < d)%N ->
     (k' + j' * d + i' * (d * d))%N = idx -> i' = 1%N /\ j' = 0%N /\ k' = 1%N) /\
  exists (o' : VoxelCarving) (cur : float),
    @carve toy o cam = Some o' /\
    vox_array_ o !! N.to_nat idx = Some cur /\
    vox_array_ o' !! N.to_nat idx
      = Some (F32.std_min cur
                (contributed_distance (getMask cam) (createDistMap (getMask cam))
                                      (Mat_size (getMask cam)) (project cam v))).
Proof.
  intros o cam.
  assert (consistent o) as Hc by (repeat split; reflexivity).
  assert (1 < voxel_dim_ o)%N as H1 by reflexivity.
  assert (0 < voxel_dim_ o)%N as H0 by reflexivity.
  split; [exact Hc|]. split; [exact H1|]. split; [exact H0|].
  exact (@voxel_position_and_index toy o cam 1 0 1 Hc H1 H0 H1).
Defined.

(** C3.  After any sequence of [carve] calls on a constructed object, one more
    call is defined, keeps the size of the field, and leaves in every cell a
    value [<=] the one it held before the call. *)
Theorem carve_monotone `{Collaborators}
    (bbox : bb_bounds) (voxel_dim : N) (cams : list Camera) (cam : Camera) :
  fits voxel_dim ->
  exists o1 o2 : VoxelCarving,
    carve_all (VoxelCarving_new bbox voxel_dim) cams = Some o1 /\
    carve o1 cam = Some o2 /\
    length (vox_array_ o1) = N.to_nat (voxel_dim * voxel_dim * voxel_dim) /\
    length (vox_array_ o2) = N.to_nat (voxel_dim * voxel_dim * voxel_dim) /\
    forall (m : nat) (before after : float),
      vox_array_ o1 !! m = Some before ->
      vox_array_ o2 !! m = Some after ->
      F32.leb after before = true.
Proof.
  intros Hd.
  pose proof (new_consistent bbox voxel_dim Hd) as Hc0.
  pose proof (new_length bbox voxel_dim Hd) as Hlen0.
  set (o0 := VoxelCarving_new bbox voxel_dim) in *.
  set (o1 := with_vox_array o0 (imap (running_min o0 cams) (vox_array_ o0))).
  assert (consistent o1) as Hc1
      by (apply with_vox_array_consistent; [assumption | apply length_imap]).
  exists o1, (with_vox_array o1 (imap (carved_cell o1 cam) (vox_array_ o1))).
  split; [now apply carve_all_cells|]. split; [now apply carve_imap|].
  split; [simpl; now rewrite length_imap|].
  split; [simpl; now rewrite !length_imap|].
  intros m before after Hb Ha.
  simpl in Ha. rewrite list_lookup_imap in Ha. simpl in Hb. rewrite Hb in Ha.
  injection Ha as <-.
  apply std_min_le_l.
  apply list_lookup_imap_Some in Hb as (v0 & Hv0 & ->).
  apply running_min_not_nan.
  now rewrite (new_cells bbox voxel_dim m v0 Hv0).
Qed.

(** The theorem at a 2 x 2 x 2 field carved with one camera, then another. *)
Lemma carve_monotone_witness :
  fits 2 /\
  exists o1 o2 : VoxelCarving,
    carve_all (VoxelCarving_new (bbox10 F32.zero F32.zero) 2) [cam_fg F32.two] = Some o1 /\
    carve o1 (cam_bg F32.one) = Some o2 /\
    length (vox_array_ o1) = N.to_nat (2 * 2 * 2) /\
    length (vox_array_ o2) = N.to_nat (2 * 2 * 2) /\
    forall (m : nat) (before after : float),
      vox_array_ o1 !! m = Some before ->
      vox_array_ o2 !! m = Some after ->
      F32.leb after before = true.
Proof.
  assert (fits 2) as Hd by reflexivity.
  split; [exact Hd|].
  exact (@carve_monotone toy (bbox10 F32.zero F32.zero) 2 [cam_fg F32.two] (cam_bg F32.one) Hd).
Defined.

(** C4 (as amended).  From a constructed object, one [carve] call per camera
    of a list and one per camera of any rearrangement of it are both defined
    and give fields of the same size whose corresponding cells compare equal
    as floats; two corresponding cells hold the same value unless both are
    zeros, which may differ in sign. *)
Theorem carve_order_independent `{Collaborators}
    (bbox : bb_bounds) (voxel_dim : N) (cams1 cams2 : list Camera) :
  fits voxel_dim ->
  Permutation cams1 cams2 ->
  exists o1 o2 : VoxelCarving,
    carve_all (VoxelCarving_new bbox voxel_dim) cams1 = Some o1 /\
    carve_all (VoxelCarving_new bbox voxel_dim) cams2 = Some o2 /\
    length (vox_array_ o1) = N.to_nat (voxel_dim * voxel_dim * voxel_dim) /\
    length (vox_array_ o2) = N.to_nat (voxel_dim * voxel_dim * voxel_dim) /\
    forall (m : nat) (a b : float),
      vox_array_ o1 !! m = Some a ->
      vox_array_ o2 !! m = Some b ->
      F32.eqb a b = true /\
      (a = b \/ (F32.is_zero a = true /\ F32.is_zero b = true)).
Proof.
  intros Hd Hperm.
  pose proof (new_consistent bbox voxel_dim Hd) as Hc0.
  pose proof (new_length bbox voxel_dim Hd) as Hlen0.
  set (o0 := VoxelCarving_new bbox voxel_dim) in *.
  exists (with_vox_array o0 (imap (running_min o0 cams1) (vox_array_ o0))),
         (with_vox_array o0 (imap (running_min o0 cams2) (vox_array_ o0))).
  split; [now apply carve_all_cells|]. split; [now apply carve_all_cells|].
  split; [simpl; now rewrite length_imap|].
  split; [simpl; now rewrite length_imap|].
  intros m a b Ha Hb. simpl in Ha, Hb.
  apply list_lookup_imap_Some in Ha as (v0 & Hv0 & ->).
  apply list_lookup_imap_Some in Hb as (v0' & Hv0' & ->).
  assert (v0' = v0) as -> by congruence.
  assert (F32.is_nan v0 = false) as Hnan
      by now rewrite (new_cells bbox voxel_dim m v0 Hv0).
  assert (F32.eqb (running_min o0 cams1 m v0) (running_min o0 cams2 m v0) = true) as E.
  { rewrite !running_min_fold. apply min_fold_perm; [assumption|].
    now apply Permutation_map. }
  split; [exact E|]. now apply eqb_same_or_zeros.
Qed.

(** C4, as stated, fails: a camera whose mask is foreground and a camera
    whose mask is background at a pixel where both distance maps hold 0.0
    leave +0.0 in one order and -0.0 in the other. *)
Lemma carve_order_changes_sign_of_zero :
  let o := VoxelCarving_new bbox_10_20 1 in
  let fg := cam_fg F32.zero in
  let bg := cam_bg F32.zero in
  Permutation [fg; bg] [bg; fg] /\
  vox_array_ <$> carve_all o [fg; bg] = Some [S754_zero false] /\
  vox_array_ <$> carve_all o [bg; fg] = Some [S754_zero true] /\
  carve_all o [fg; bg] <> carve_all o [bg; fg].
Proof.
  intros o fg bg. split; [apply perm_swap|].
  split; [vm_compute; reflexivity|]. split; [vm_compute; reflexivity|].
  intros E. apply (f_equal (fmap vox_array_)) in E. vm_compute in E. discriminate.
Qed.

(** The theorem at the two orders of the pair of cameras above. *)
Lemma carve_order_independent_witness :
  fits 1 /\
  Permutation [cam_fg F32.zero; cam_bg F32.zero] [cam_bg F32.zero; cam_fg F32.zero] /\
  exists o1 o2 : VoxelCarving,
    carve_all (VoxelCarving_new bbox_10_20 1) [cam_fg F32.zero; cam_bg F32.zero] = Some o1 /\
    carve_all (VoxelCarving_new bbox_10_20 1) [cam_bg F32.zero; cam_fg F32.zero] = Some o2 /\
    length (vox_array_ o1) = N.to_nat (1 * 1 * 1) /\
    length (vox_array_ o2) = N.to_nat (1 * 1 * 1) /\
    forall (m : nat) (a b : float),
      vox_array_ o1 !! m = Some a ->
      vox_array_ o2 !! m = Some b ->
      F32.eqb a b = true /\
      (a = b \/ (F32.is_zero a = true /\ F32.is_zero b = true)).
Proof.
  assert (fits 1) as Hd by reflexivity.
  assert (Permutation [cam_fg F32.zero; cam_bg F32.zero]
                      [cam_bg F32.zero; cam_fg F32.zero]) as Hp by apply perm_swap.
  split; [exact Hd|]. split; [exact Hp|].
  exact (@carve_order_independent toy bbox_10_20 1 _ _ Hd Hp).
Defined.

(** C9.  On any object whose sizes are the constructor's, whatever its field
    holds, a second [carve] with the same camera changes nothing. *)
Theorem carve_idempotent `{Collaborators} (o : VoxelCarving) (cam : Camera) :
  consistent o ->
  exists o1 : VoxelCarving, carve o cam = Some o1 /\ carve o1 cam = Some o1.
Proof.
  intros Hc.
  set (o1 := with_vox_array o (imap (carved_cell o cam) (vox_array_ o))).
  assert (consistent o1) as Hc1
      by (apply with_vox_array_consistent; [assumption | apply length_imap]).
  exists o1. split; [now apply carve_imap|].
  rewrite (carve_imap o1 cam Hc1). f_equal.
  unfold o1, with_vox_array. simpl. f_equal.
  apply list_eq. intros m. rewrite !list_lookup_imap.
  destruct (vox_array_ o !! m) as [v|]; [|reflexivity]. simpl. f_equal.
  unfold carved_cell. simpl. apply std_min_idem.
Qed.

(** The theorem at a freshly constructed 2 x 2 x 2 field. *)
Lemma carve_idempotent_witness :
  consistent (VoxelCarving_new (bbox10 F32.zero F32.zero) 2) /\
  exists o1 : VoxelCarving,
    carve (VoxelCarving_new (bbox10 F32.zero F32.zero) 2) (cam_fg F32.two) = Some o1 /\
    carve o1 (cam_fg F32.two) = Some o1.
Proof.
  assert (consistent (VoxelCarving_new (bbox10 F32.zero F32.zero) 2)) as Hc
      by (repeat split; reflexivity).
  split; [exact Hc|].
  exact (@carve_idempotent toy _ (cam_fg F32.two) Hc).
Defined.

(** ** Surface normals *)

(** C2 (what the code does).  [calcSurfaceNormals] returns the cross product
    (v2 - v1) x (v3 - v1) of every triangle once, in order: the list is as
    long as the triangle list, not three times as long; for the single
    triangle (0,0,0), (1,0,0), (0,1,0) it is the one normal (0,0,1). *)
Theorem calcSurfaceNormals_one_per_triangle :
  (forall triangles : list triangle,
     calcSurfaceNormals triangles
       = map (fun tri => calcSurfaceNormal (v1 tri) (v2 tri) (v3 tri)) triangles /\
     length (calcSurfaceNormals triangles) = length triangles) /\
  calcSurfaceNormals [unit_triangle] = [mk_vec3f F32.zero F32.zero F32.one] /\
  length (calcSurfaceNormals [unit_triangle]) <> (3 * length [unit_triangle])%nat.
Proof.
  split.
  - intros triangles. unfold calcSurfaceNormals.
    rewrite (normals_fold (fun tri => calcSurfaceNormal (v1 tri) (v2 tri) (v3 tri))).
    simpl. split; [reflexivity|]. apply length_map.
  - split; [vm_compute; reflexivity|]. vm_compute. discriminate.
Qed.

(** ** Export *)

(** C8.  [exportToDisk] fails its assertion exactly when the stored triangle
    list is empty, and otherwise hands the stored triangles and normals to the
    writer for "export.obj"; a freshly constructed object has no triangles,
    and [carve] does not change that. *)
Theorem exportToDisk_precondition `{Collaborators} (o : VoxelCarving) :
  exportToDisk o =
    match getTriangles (visual_hull_ o) with
    | [] => AssertionFailure
    | _ :: _ => SavedAsOBJ "export.obj" (getTriangles (visual_hull_ o))
                           (getNormals (visual_hull_ o))
    end /\
  (forall (bbox : bb_bounds) (voxel_dim : N),
     exportToDisk (VoxelCarving_new bbox voxel_dim) = AssertionFailure) /\
  (forall (cam : Camera) (o' : VoxelCarving),
     carve o cam = Some o' -> exportToDisk o' = exportToDisk o).
Proof.
  split; [|split].
  - unfold exportToDisk. now destruct (getTriangles (visual_hull_ o)).
  - reflexivity.
  - intros cam o' E. unfold carve in E.
    destruct (for_loop _ _ _) as [arr|]; [|discriminate].
    injection E as <-. reflexivity.
Qed.

(** The theorem at a fresh object, at the same object after extraction and
    after one [carve] call. *)
Lemma exportToDisk_precondition_witness :
  let o := VoxelCarving_new (bbox10 F32.zero F32.zero) 2 in
  let cam := cam_bg F32.one in
  let carved := with_vox_array o (replicate 8 F32.minus_one) in
  exportToDisk o = AssertionFailure /\
  exportToDisk (snd (@createVisualHull toy o))
    = SavedAsOBJ "export.obj" [unit_triangle] [mk_vec3f F32.zero F32.zero F32.one] /\
  @carve toy o cam = Some carved /\
  exportToDisk carved = AssertionFailure.
Proof.
  intros o cam carved.
  assert (@carve toy o cam = Some carved) as Ecarve by (vm_compute; reflexivity).
  destruct (@exportToDisk_precondition toy o) as (Eo & Hnew & Hcarve).
  destruct (@exportToDisk_precondition toy (snd (@createVisualHull toy o))) as (Ehull & _).
  split; [exact (Hnew (bbox10 F32.zero F32.zero) 2%N)|].
  split; [exact Ehull|].
  split; [exact Ecarve|].
  exact (eq_trans (Hcarve cam carved Ecarve) (Hnew (bbox10 F32.zero F32.zero) 2%N)).
Defined.

(** * Further properties of the code *)

(** ** More binary32 arithmetic *)

Section Arithmetic.

Lemma ltb_nan_r (x : float) : F32.ltb x S754_nan = false.
Proof.
  destruct (F32.ltb x S754_nan) eqn:E; [|reflexivity].
  apply ltb_rank in E as (_ & E & _). discriminate.
Qed.

Lemma binary_round_aux_opp (s : bool) (m e : Z) (l : location) :
  binary_round_aux F32.prec F32.emax (negb s) m e l
  = F32.opp (binary_round_aux F32.prec F32.emax s m e l).
Proof.
  unfold binary_round_aux.
  destruct (shr_fexp _ _ m e l) as [mrs' e'].
  destruct (shr_fexp _ _ _ e' loc_Exact) as [mrs'' e''].
  destruct (shr_m mrs''); simpl; try reflexivity.
  destruct (Z.leb e'' _); reflexivity.
Qed.

Lemma binary_normalize_opp (m e : Z) :
  m <> 0 ->
  binary_normalize F32.prec F32.emax (- m) e false
  = F32.opp (binary_normalize F32.prec F32.emax m e false).
Proof.
  intros Hm. destruct m as [|q|q]; [lia| |]; simpl; unfold binary_round;
    destruct (shl_align _ _ _) as [mz ez].
  - exact (binary_round_aux_opp false (Z.pos mz) ez loc_Exact).
  - exact (binary_round_aux_opp true (Z.pos mz) ez loc_Exact).
Qed.

(** Exchanging the operands of a subtraction flips the sign of the result,
    except that a zero result is a zero either way. *)
Lemma sub_antisym (x y : float) : negated_or_zeros (F32.sub x y) (F32.sub y x).
Proof.
  unfold negated_or_zeros.
  destruct x as [sx|sx| |sx mx ex], y as [sy|sy| |sy my ey];
    try (destruct sx, sy; simpl; auto; fail);
    try (destruct sx; simpl; auto; fail);
    try (destruct sy; simpl; auto; fail);
    try (simpl; auto; fail).
  unfold F32.sub, SFsub. rewrite (Z.min_comm ey ex).
  set (A := cond_Zopp sx _). set (B := cond_Zopp sy _).
  destruct (Z.eq_dec (A - B) 0) as [E|NE].
  - right. replace (B - A) with 0 by lia. rewrite E. simpl. auto.
  - left. replace (B - A) with (- (A - B)) by lia.
    now apply binary_normalize_opp.
Qed.

Lemma abs_sub_comm (x y : float) : F32.abs (F32.sub x y) = F32.abs (F32.sub y x).
Proof.
  destruct (sub_antisym x y) as [->|[Hx Hy]].
  - now destruct (F32.sub x y).
  - destruct (F32.sub x y), (F32.sub y x); try discriminate; reflexivity.
Qed.

Lemma mul_comm (x y : float) : F32.mul x y = F32.mul y x.
Proof.
  destruct x as [sx|sx| |sx mx ex], y as [sy|sy| |sy my ey]; simpl;
    try reflexivity; try (now rewrite xorb_comm).
  now rewrite xorb_comm, Pos.mul_comm, Z.add_comm.
Qed.

(** A value minus itself is a zero; NaN when the value is infinite or NaN. *)
Lemma sub_self (x : float) : zero_or_nan (F32.sub x x) = true.
Proof.
  destruct x as [s|s| |s m e]; try (destruct s; reflexivity); try reflexivity.
  unfold F32.sub, SFsub. now rewrite Z.sub_diag.
Qed.

Lemma sub_self_finite (x : float) :
  F32.is_finite x = true -> F32.abs (F32.sub x x) = F32.zero.
Proof.
  destruct x as [s|s| |s m e]; try discriminate; intros _.
  - now destruct s.
  - unfold F32.sub, SFsub. now rewrite Z.sub_diag.
Qed.

Lemma sub_zero_r (x : float) : F32.is_finite x = true -> F32.sub x F32.zero = x.
Proof. destruct x as [s|s| |s m e]; try discriminate; intros _; [now destruct s | reflexivity]. Qed.

End Arithmetic.

(** ** The parameterizer on reversed, degenerate and dimensionless input *)

(** X1.  Giving a box with every minimum and maximum exchanged changes none of
    the three voxel steps. *)
Theorem voxel_steps_ignore_box_order (voxel_dim : N) (bbox : bb_bounds) :
  let p := calcStartParameter voxel_dim bbox in
  let p' := calcStartParameter voxel_dim (bbox_swapped bbox) in
  voxel_width p' = voxel_width p /\
  voxel_height p' = voxel_height p /\
  voxel_depth p' = voxel_depth p.
Proof.
  simpl.
  rewrite (abs_sub_comm (xmin bbox) (xmax bbox)), (abs_sub_comm (ymin bbox) (ymax bbox)),
          (abs_sub_comm (zmin bbox) (zmax bbox)).
  auto.
Qed.

(** X2.  On an axis where a finite box has no extent, the voxel step is +0.0
    and no margin is added: the start coordinate is the box's own minimum. *)
Theorem zero_extent_gives_zero_step (voxel_dim : N) (bbox : bb_bounds) :
  bbox_finite bbox = true ->
  (0 < voxel_dim < SizeT.modulus)%N ->
  let p := calcStartParameter voxel_dim bbox in
  (xmax bbox = xmin bbox -> voxel_width p = F32.zero /\ start_x p = xmin bbox) /\
  (ymax bbox = ymin bbox -> voxel_height p = F32.zero /\ start_y p = ymin bbox) /\
  (zmax bbox = zmin bbox -> voxel_depth p = F32.zero).
Proof.
  intros Hb Hd.
  unfold bbox_finite in Hb. rewrite !andb_true_iff in Hb.
  destruct Hb as (((((Hx0 & Hx1) & Hy0) & Hy1) & Hz0) & Hz1).
  destruct (to_float_finite voxel_dim Hd) as (m & e & Ed).
  simpl. rewrite Ed.
  split; [|split]; intros E; rewrite E, sub_self_finite by assumption.
  - split; [reflexivity|]. now apply sub_zero_r.
  - split; [reflexivity|]. now apply sub_zero_r.
  - reflexivity.
Qed.

Lemma zero_extent_gives_zero_step_witness :
  bbox_finite bbox_point = true /\
  (0 < 4 < SizeT.modulus)%N /\
  let p := calcStartParameter 4 bbox_point in
  voxel_width p = F32.zero /\ start_x p = xmin bbox_point /\
  voxel_height p = F32.zero /\ start_y p = ymin bbox_point /\
  voxel_depth p = F32.zero.
Proof.
  assert (bbox_finite bbox_point = true) as Hb by reflexivity.
  assert (0 < 4 < SizeT.modulus)%N as Hd by (split; reflexivity).
  split; [exact Hb|]. split; [exact Hd|].
  destruct (zero_extent_gives_zero_step 4 bbox_point Hb Hd) as (Hx & Hy & Hz).
  destruct (Hx eq_refl) as [Hx1 Hx2]. destruct (Hy eq_refl) as [Hy1 Hy2].
  exact (conj Hx1 (conj Hx2 (conj Hy1 (conj Hy2 (Hz eq_refl))))).
Defined.

(** X3.  With [voxel_dim = 0] nothing is rejected: for a finite box every
    voxel step is the result of a division by +0.0, so none is a finite number
    (each is NaN or an infinity); the depth step is NaN when the box has no
    depth and +infinity otherwise. *)
Theorem zero_dimension_steps_not_finite (bbox : bb_bounds) :
  bbox_finite bbox = true ->
  let p := calcStartParameter 0 bbox in
  F32.is_finite (voxel_width p) = false /\
  F32.is_finite (voxel_height p) = false /\
  F32.is_finite (voxel_depth p) = false /\
  voxel_depth p = if F32.is_zero (F32.sub (zmax bbox) (zmin bbox))
                  then S754_nan else S754_infinity false.
Proof.
  intros Hb.
  unfold bbox_finite in Hb. rewrite !andb_true_iff in Hb.
  destruct Hb as (((((Hx0 & Hx1) & Hy0) & Hy1) & Hz0) & Hz1).
  assert (forall a, signed_as false a -> F32.is_finite (F32.div a (SizeT.to_float 0)) = false)
    as Hdiv.
  { intros a. destruct a as [s|s| |s mm ee]; simpl; try contradiction; reflexivity. }
  simpl. repeat split.
  - apply Hdiv, (mul_signed _ 9395241 (-23)). now apply abs_sub_signed.
  - apply Hdiv, (mul_signed _ 11744051 (-23)). now apply abs_sub_signed.
  - apply Hdiv. now apply abs_sub_signed.
  - pose proof (abs_sub_signed (zmax bbox) (zmin bbox) Hz1 Hz0) as Sz.
    destruct (F32.sub (zmax bbox) (zmin bbox)) as [s|s| |s mm ee]; simpl in *;
      try contradiction; reflexivity.
Qed.

Lemma zero_dimension_steps_not_finite_witness :
  bbox_finite bbox_point = true /\
  let p := calcStartParameter 0 bbox_point in
  F32.is_finite (voxel_width p) = false /\
  F32.is_finite (voxel_height p) = false /\
  F32.is_finite (voxel_depth p) = false /\
  voxel_depth p = if F32.is_zero (F32.sub (zmax bbox_point) (zmin bbox_point))
                  then S754_nan else S754_infinity false.
Proof.
  assert (bbox_finite bbox_point = true) as Hb by reflexivity.
  split; [exact Hb|].
  exact (zero_dimension_steps_not_finite bbox_point Hb).
Defined.

(** ** Normals of flipped and of degenerate triangles *)

(** X4.  Exchanging the second and third corner of a triangle flips the sign
    of every component of its normal (a component that is a zero stays a
    zero, a NaN stays NaN): the winding order alone decides the side the
    normal points to. *)
Theorem calcSurfaceNormal_winding (a b c : vec3f) :
  let n := calcSurfaceNormal a b c in
  let n' := calcSurfaceNormal a c b in
  negated_or_zeros (vx n) (vx n') /\
  negated_or_zeros (vy n) (vy n') /\
  negated_or_zeros (vz n) (vz n').
Proof.
  simpl. split; [|split].
  - apply sub_antisym.
  - rewrite (mul_comm (F32.sub (vz c) (vz a)) (F32.sub (vx b) (vx a))),
            (mul_comm (F32.sub (vx c) (vx a)) (F32.sub (vz b) (vz a))).
    apply sub_antisym.
  - apply sub_antisym.
Qed.

(** X5.  A triangle whose second and third corner coincide has no non-zero
    normal component: each is a zero, or NaN when the products involved are
    not finite. *)
Theorem calcSurfaceNormal_degenerate (a b : vec3f) :
  let n := calcSurfaceNormal a b b in
  zero_or_nan (vx n) = true /\ zero_or_nan (vy n) = true /\ zero_or_nan (vz n) = true.
Proof.
  simpl. split; [|split].
  - apply sub_self.
  - rewrite (mul_comm (F32.sub (vx b) (vx a)) (F32.sub (vz b) (vz a))). apply sub_self.
  - apply sub_self.
Qed.

(** ** More on one cell's running minimum *)

Section MinFold.

Lemma min_fold_nan (ds : list float) : fold_left F32.std_min ds S754_nan = S754_nan.
Proof.
  induction ds as [|d ds IH]; simpl; [reflexivity|].
  unfold F32.std_min at 2. now rewrite ltb_nan_r.
Qed.

(** Folding in a value the fold has already seen changes nothing. *)
Lemma min_fold_absorb (ds : list float) (v d : float) :
  In d ds -> F32.std_min (fold_left F32.std_min ds v) d = fold_left F32.std_min ds v.
Proof.
  intros Hd. destruct (F32.is_nan v) eqn:Hv.
  - destruct v; try discriminate. rewrite min_fold_nan.
    unfold F32.std_min. now rewrite ltb_nan_r.
  - destruct (min_fold_spec ds v Hv) as (_ & _ & Hmin).
    unfold F32.std_min. rewrite Hmin; [reflexivity | now right].
Qed.

End MinFold.

(** ** More on [carve] *)

(** X6.  [carve] changes nothing but the contents of the field: the three
    size members, the start parameters, the stored hull and the length of the
    buffer are as before, so the object can be carved again. *)
Theorem carve_keeps_object `{Collaborators} (o : VoxelCarving) (cam : Camera) :
  consistent o ->
  exists o' : VoxelCarving,
    carve o cam = Some o' /\
    voxel_dim_ o' = voxel_dim_ o /\
    voxel_slice_ o' = voxel_slice_ o /\
    voxel_size_ o' = voxel_size_ o /\
    params_ o' = params_ o /\
    visual_hull_ o' = visual_hull_ o /\
    length (vox_array_ o') = length (vox_array_ o) /\
    consistent o'.
Proof.
  intros Hc.
  exists (with_vox_array o (imap (carved_cell o cam) (vox_array_ o))).
  split; [now apply carve_imap|].
  do 5 (split; [reflexivity|]).
  split; [apply length_imap|].
  apply with_vox_array_consistent; [assumption | apply length_imap].
Qed.

Lemma carve_keeps_object_witness :
  let o := VoxelCarving_new (bbox10 F32.zero F32.zero) 2 in
  consistent o /\
  exists o' : VoxelCarving,
    carve o (cam_fg F32.two) = Some o' /\
    voxel_dim_ o' = voxel_dim_ o /\
    voxel_slice_ o' = voxel_slice_ o /\
    voxel_size_ o' = voxel_size_ o /\
    params_ o' = params_ o /\
    visual_hull_ o' = visual_hull_ o /\
    length (vox_array_ o') = length (vox_array_ o) /\
    consistent o'.
Proof.
  intros o.
  assert (consistent o) as Hc by (repeat split; reflexivity).
  split; [exact Hc|].
  exact (@carve_keeps_object toy o (cam_fg F32.two) Hc).
Defined.

(** X7.  One [carve] call reaches every cell of the field: each cell is the
    cell of a grid coordinate inside the grid, and is updated with the
    distance of the voxel at that coordinate. *)
Theorem carve_reaches_every_cell `{Collaborators} (o : VoxelCarving) (cam : Camera) :
  consistent o ->
  exists o' : VoxelCarving,
    carve o cam = Some o' /\
    forall (m : nat) (cur : float),
      vox_array_ o !! m = Some cur ->
      exists i j k : N,
        (i < voxel_dim_ o)%N /\ (j < voxel_dim_ o)%N /\ (k < voxel_dim_ o)%N /\
        N.to_nat (linear_index o i j k) = m /\
        vox_array_ o' !! m
          = Some (F32.std_min cur (voxel_distance (params_ o) cam i j k)).
Proof.
  intros Hc.
  exists (with_vox_array o (imap (carved_cell o cam) (vox_array_ o))).
  split; [now apply carve_imap|].
  intros m cur Hcur.
  pose proof (buffer_length o Hc) as HL.
  pose proof (lookup_lt_Some _ _ _ Hcur) as Hm.
  destruct (index_of_grid (voxel_dim_ o) (N.of_nat m)) as (Hi & Hj & Hk & E); [lia|].
  exists (grid_i (voxel_dim_ o) (N.of_nat m)), (grid_j (voxel_dim_ o) (N.of_nat m)),
         (grid_k (voxel_dim_ o) (N.of_nat m)).
  do 3 (split; [assumption|]). split.
  - rewrite linear_index_exact, <- E by assumption. lia.
  - simpl. rewrite list_lookup_imap, Hcur. reflexivity.
Qed.

Lemma carve_reaches_every_cell_witness :
  let o := VoxelCarving_new (bbox10 F32.zero F32.zero) 2 in
  consistent o /\
  exists o' : VoxelCarving,
    carve o (cam_fg F32.two) = Some o' /\
    forall (m : nat) (cur : float),
      vox_array_ o !! m = Some cur ->
      exists i j k : N,
        (i < voxel_dim_ o)%N /\ (j < voxel_dim_ o)%N /\ (k < voxel_dim_ o)%N /\
        N.to_nat (linear_index o i j k) = m /\
        vox_array_ o' !! m
          = Some (F32.std_min cur (@voxel_distance toy (params_ o) (cam_fg F32.two) i j k)).
Proof.
  intros o.
  assert (consistent o) as Hc by (repeat split; reflexivity).
  split; [exact Hc|].
  exact (@carve_reaches_every_cell toy o (cam_fg F32.two) Hc).
Defined.

(** X8.  [carve] only ever lowers a cell, and only to the camera's distance
    for that cell; it never stores NaN and never replaces a NaN cell. *)
Theorem carve_lowers_or_keeps `{Collaborators} (o : VoxelCarving) (cam : Camera) :
  consistent o ->
  exists o' : VoxelCarving,
    carve o cam = Some o' /\
    forall (m : nat) (cur new : float),
      vox_array_ o !! m = Some cur ->
      vox_array_ o' !! m = Some new ->
      (new = cur \/ (new = cell_distance o cam m /\ F32.ltb new cur = true)) /\
      F32.is_nan new = F32.is_nan cur.
Proof.
  intros Hc.
  exists (with_vox_array o (imap (carved_cell o cam) (vox_array_ o))).
  split; [now apply carve_imap|].
  intros m cur new Hcur Hnew.
  simpl in Hnew. rewrite list_lookup_imap, Hcur in Hnew. injection Hnew as <-.
  unfold carved_cell, F32.std_min. fold (cell_distance o cam m).
  destruct (F32.ltb (cell_distance o cam m) cur) eqn:E.
  - split; [now right|].
    apply ltb_rank in E as (Hd & Hcur' & _). congruence.
  - split; [now left | reflexivity].
Qed.

Lemma carve_lowers_or_keeps_witness :
  let o := VoxelCarving_new (bbox10 F32.zero F32.zero) 2 in
  consistent o /\
  exists o' : VoxelCarving,
    carve o (cam_fg F32.two) = Some o' /\
    forall (m : nat) (cur new : float),
      vox_array_ o !! m = Some cur ->
      vox_array_ o' !! m = Some new ->
      (new = cur \/ (new = @cell_distance toy o (cam_fg F32.two) m /\ F32.ltb new cur = true)) /\
      F32.is_nan new = F32.is_nan cur.
Proof.
  intros o.
  assert (consistent o) as Hc by (repeat split; reflexivity).
  split; [exact Hc|].
  exact (@carve_lowers_or_keeps toy o (cam_fg F32.two) Hc).
Defined.

Section CarvedField.
Context `{Collaborators}.

Lemma running_min_cell_distance (o : VoxelCarving) (cams : list Camera) (m : nat) (v : float) :
  running_min o cams m v
  = fold_left F32.std_min (map (fun cam => cell_distance o cam m) cams) v.
Proof. apply running_min_fold. Qed.

End CarvedField.

(** X9.  After one [carve] call per camera of a list on a constructed object,
    every cell holds the minimum over the cameras: it is [FLT_MAX] or the
    distance one of the cameras contributed to it, no camera's distance is
    below it, and it is negative exactly when some camera's distance for it is
    negative. *)
Theorem carved_cell_is_minimum `{Collaborators}
    (bbox : bb_bounds) (voxel_dim : N) (cams : list Camera) :
  fits voxel_dim ->
  let o := VoxelCarving_new bbox voxel_dim in
  exists o' : VoxelCarving,
    carve_all o cams = Some o' /\
    forall (m : nat) (r : float),
      vox_array_ o' !! m = Some r ->
      (r = F32.FLT_MAX \/ exists cam, In cam cams /\ r = cell_distance o cam m) /\
      (forall cam, In cam cams -> F32.ltb (cell_distance o cam m) r = false) /\
      (F32.ltb r F32.zero = true <->
       exists cam, In cam cams /\ F32.ltb (cell_distance o cam m) F32.zero = true).
Proof.
  intros Hd o.
  pose proof (new_consistent bbox voxel_dim Hd) as Hc. fold o in Hc.
  exists (with_vox_array o (imap (running_min o cams) (vox_array_ o))).
  split; [now apply carve_all_cells|].
  intros m r Hr. simpl in Hr.
  apply list_lookup_imap_Some in Hr as (v0 & Hv0 & ->).
  rewrite (new_cells bbox voxel_dim m v0 Hv0).
  rewrite running_min_cell_distance.
  destruct (min_fold_spec (map (fun cam => cell_distance o cam m) cams) F32.FLT_MAX eq_refl)
    as (Hnan & Hin & Hmin).
  set (r := fold_left _ _ _) in *.
  assert (r = F32.FLT_MAX \/ exists cam, In cam cams /\ r = cell_distance o cam m) as Hmem.
  { destruct Hin as [E|Hin]; [now left|]. right.
    apply in_map_iff in Hin as (cam & E & Hcam). eauto. }
  assert (forall cam, In cam cams -> F32.ltb (cell_distance o cam m) r = false) as Hlow.
  { intros cam Hcam. apply Hmin. right.
    apply in_map_iff. eauto. }
  split; [exact Hmem|]. split; [exact Hlow|]. split.
  - intros Hneg. destruct Hmem as [E|(cam & Hcam & E)].
    + rewrite E in Hneg. discriminate.
    + exists cam. split; [assumption|]. now rewrite <- E.
  - intros (cam & Hcam & Hneg).
    exact (ltb_cotrans _ r _ Hneg Hnan (Hlow cam Hcam)).
Qed.

Lemma carved_cell_is_minimum_witness :
  fits 2 /\
  let o := VoxelCarving_new (bbox10 F32.zero F32.zero) 2 in
  let cams := [cam_fg F32.two; cam_bg F32.one] in
  exists o' : VoxelCarving,
    carve_all o cams = Some o' /\
    forall (m : nat) (r : float),
      vox_array_ o' !! m = Some r ->
      (r = F32.FLT_MAX \/ exists cam, In cam cams /\ r = @cell_distance toy o cam m) /\
      (forall cam, In cam cams -> F32.ltb (@cell_distance toy o cam m) r = false) /\
      (F32.ltb r F32.zero = true <->
       exists cam, In cam cams /\ F32.ltb (@cell_distance toy o cam m) F32.zero = true).
Proof.
  assert (fits 2) as Hd by reflexivity.
  split; [exact Hd|].
  exact (@carved_cell_is_minimum toy (bbox10 F32.zero F32.zero) 2
           [cam_fg F32.two; cam_bg F32.one] Hd).
Defined.

(** X10.  Carving again with any camera that was already applied, however
    many other cameras came in between, changes nothing. *)
Theorem carve_again_changes_nothing `{Collaborators}
    (o : VoxelCarving) (cams : list Camera) (cam : Camera) :
  consistent o ->
  In cam cams ->
  exists o1 : VoxelCarving, carve_all o cams = Some o1 /\ carve o1 cam = Some o1.
Proof.
  intros Hc Hcam.
  set (o1 := with_vox_array o (imap (running_min o cams) (vox_array_ o))).
  assert (consistent o1) as Hc1
      by (apply with_vox_array_consistent; [assumption | apply length_imap]).
  exists o1. split; [now apply carve_all_cells|].
  rewrite (carve_imap o1 cam Hc1). f_equal.
  unfold o1, with_vox_array. simpl. f_equal.
  apply list_eq. intros m. rewrite !list_lookup_imap.
  destruct (vox_array_ o !! m) as [v|]; [|reflexivity]. simpl. f_equal.
  unfold carved_cell. simpl. fold (cell_distance o cam m).
  rewrite running_min_cell_distance.
  apply min_fold_absorb. apply in_map_iff. eauto.
Qed.

Lemma carve_again_changes_nothing_witness :
  let o := VoxelCarving_new (bbox10 F32.zero F32.zero) 2 in
  consistent o /\
  In (cam_fg F32.two) [cam_fg F32.two; cam_bg F32.one] /\
  exists o1 : VoxelCarving,
    carve_all o [cam_fg F32.two; cam_bg F32.one] = Some o1 /\
    carve o1 (cam_fg F32.two) = Some o1.
Proof.
  intros o.
  assert (consistent o) as Hc by (repeat split; reflexivity).
  assert (In (cam_fg F32.two) [cam_fg F32.two; cam_bg F32.one]) as Hin by (left; reflexivity).
  split; [exact Hc|]. split; [exact Hin|].
  exact (@carve_again_changes_nothing toy o _ (cam_fg F32.two) Hc Hin).
Defined.

(** X11.  Nothing checks that [voxel_dim^3] fits [std::size_t]: for a positive
    dimension whose cube wraps to 0 (2^22 is the smallest) the constructor
    allocates an empty field, and the first access of any [carve] call is
    outside it. *)
Theorem carve_after_size_overflow `{Collaborators}
    (bbox : bb_bounds) (voxel_dim : N) (cam : Camera) :
  (0 < voxel_dim < SizeT.modulus)%N ->
  SizeT.mul (SizeT.mul voxel_dim voxel_dim) voxel_dim = 0%N ->
  vox_array_ (VoxelCarving_new bbox voxel_dim) = [] /\
  carve (VoxelCarving_new bbox voxel_dim) cam = None.
Proof.
  intros [Hpos _] Hwrap.
  assert (vox_array_ (VoxelCarving_new bbox voxel_dim) = []) as Hempty
      by (simpl; now rewrite Hwrap).
  split; [exact Hempty|].
  unfold carve. rewrite Hempty. simpl voxel_dim_.
  unfold for_loop.
  destruct (N.to_nat voxel_dim) as [|n] eqn:En; [lia|].
  reflexivity.
Qed.

Lemma carve_after_size_overflow_witness :
  (0 < 4194304 < SizeT.modulus)%N /\
  SizeT.mul (SizeT.mul 4194304 4194304) 4194304 = 0%N /\
  vox_array_ (VoxelCarving_new bbox_10_20 4194304) = [] /\
  carve (VoxelCarving_new bbox_10_20 4194304) (cam_fg F32.one) = None.
Proof.
  assert (0 < 4194304 < SizeT.modulus)%N as Hd by (split; reflexivity).
  assert (SizeT.mul (SizeT.mul 4194304 4194304) 4194304 = 0%N) as Hw by reflexivity.
  split; [exact Hd|]. split; [exact Hw|].
  exact (@carve_after_size_overflow toy bbox_10_20 4194304 (cam_fg F32.one) Hd Hw).
Defined.

(** ** Extraction *)

Section Extraction.

Lemma fits_small (d : N) : fits d -> (d < 4194304)%N.
Proof.
  unfold fits, SizeT.modulus. intros Hd.
  destruct (N.lt_ge_cases d 4194304) as [|Hge]; [assumption|].
  assert (4194304 * 4194304 <= d * d)%N by nia.
  assert (4194304 * 4194304 * 4194304 <= d * d * d)%N by nia.
  change (2 ^ 64)%N with 18446744073709551616%N in Hd. lia.
Qed.

Lemma size_t_to_int_small (n : N) : (n < 2147483648)%N -> size_t_to_int n = Z.of_N n.
Proof.
  intros Hn. unfold size_t_to_int.
  change (2 ^ 31) with 2147483648. change (2 ^ 32) with 4294967296.
  rewrite Z.mod_small by lia. lia.
Qed.

End Extraction.

(** X12.  On an object with the constructor's sizes, [createVisualHull] runs
    the extractor on the untouched field with the origin and the steps in
    x, z, y order, isovalue +0.0 and the grid dimension itself as each of the
    three [int] dimensions (the cast loses nothing); it returns what it
    stores, namely the extractor's triangles with one cross-product normal
    each; it leaves field, sizes and parameters alone, so calling it again
    gives the same result; and [exportToDisk] afterwards aborts exactly when
    the extractor returned no triangle. *)
Theorem createVisualHull_stores_mesh `{Collaborators} (o : VoxelCarving) :
  consistent o ->
  let triangles :=
    marching_cubes (visual_hull_params o (Z.of_N (voxel_dim_ o))) (vox_array_ o) in
  let normals := map (fun tri => calcSurfaceNormal (v1 tri) (v2 tri) (v3 tri)) triangles in
  let o' := snd (createVisualHull o) in
  fst (createVisualHull o) = mk_PolyData triangles normals /\
  visual_hull_ o' = mk_PolyData triangles normals /\
  vox_array_ o' = vox_array_ o /\
  params_ o' = params_ o /\
  voxel_dim_ o' = voxel_dim_ o /\
  consistent o' /\
  createVisualHull o' = createVisualHull o /\
  exportToDisk o' = match triangles with
                    | [] => AssertionFailure
                    | _ :: _ => SavedAsOBJ "export.obj" triangles normals
                    end.
Proof.
  intros Hc triangles normals o'.
  assert (size_t_to_int (voxel_dim_ o) = Z.of_N (voxel_dim_ o)) as Edim.
  { apply size_t_to_int_small. destruct Hc as (Hfit & _).
    pose proof (fits_small _ Hfit). lia. }
  assert (fst (createVisualHull o) = mk_PolyData triangles normals) as Ehull.
  { unfold createVisualHull. simpl. rewrite Edim.
    fold (visual_hull_params o (Z.of_N (voxel_dim_ o))). fold triangles.
    f_equal. unfold calcSurfaceNormals.
    rewrite (normals_fold (fun tri => calcSurfaceNormal (v1 tri) (v2 tri) (v3 tri))).
    reflexivity. }
  assert (visual_hull_ o' = fst (createVisualHull o)) as Estored by reflexivity.
  split; [exact Ehull|]. split; [now rewrite Estored|].
  do 3 (split; [reflexivity|]).
  split; [exact Hc|]. split; [reflexivity|].
  unfold exportToDisk. rewrite Estored, Ehull. simpl.
  now destruct triangles.
Qed.

Lemma createVisualHull_stores_mesh_witness :
  let o := VoxelCarving_new (bbox10 F32.zero F32.zero) 2 in
  consistent o /\
  let triangles :=
    @marching_cubes toy (visual_hull_params o (Z.of_N (voxel_dim_ o))) (vox_array_ o) in
  let normals := map (fun tri => calcSurfaceNormal (v1 tri) (v2 tri) (v3 tri)) triangles in
  let o' := snd (@createVisualHull toy o) in
  fst (@createVisualHull toy o) = mk_PolyData triangles normals /\
  visual_hull_ o' = mk_PolyData triangles normals /\
  vox_array_ o' = vox_array_ o /\
  params_ o' = params_ o /\
  voxel_dim_ o' = voxel_dim_ o /\
  consistent o' /\
  @createVisualHull toy o' = @createVisualHull toy o /\
  exportToDisk o' = match triangles with
                    | [] => AssertionFailure
                    | _ :: _ => SavedAsOBJ "export.obj" triangles normals
                    end.
Proof.
  intros o.
  assert (consistent o) as Hc by (repeat split; reflexivity).
  split; [exact Hc|].
  exact (@createVisualHull_stores_mesh toy o Hc).
Defined.

(** ** Grid coordinates as floats *)

Section IndexToFloat.

Lemma digits2_pos_iter_xO (p k : positive) :
  Z.pos (digits2_pos (Pos.iter xO p k)) = Z.pos (digits2_pos p) + Z.pos k.
Proof.
  induction k as [|k IH] using Pos.peano_ind.
  - simpl. lia.
  - rewrite Pos.iter_succ. simpl digits2_pos. rewrite Pos2Z.inj_succ, IH. lia.
Qed.

(** A mantissa of exactly 24 bits with an exponent in range is kept as it
    is. *)
Lemma binary_round_aux_24_bits (s : bool) (m : positive) (e : Z) :
  Z.pos (digits2_pos m) = 24 -> -149 <= e <= 104 ->
  binary_round_aux F32.prec F32.emax s (Z.pos m) e loc_Exact = S754_finite s m e.
Proof.
  intros Hm He. unfold binary_round_aux, shr_fexp. simpl Zdigits2. rewrite Hm.
  assert (fexp F32.prec F32.emax (24 + e) - e = 0) as E0
      by (unfold fexp, emin, F32.prec, F32.emax; lia).
  rewrite E0. simpl. rewrite Hm, E0. simpl.
  replace (Z.leb e (F32.emax - F32.prec)) with true; [reflexivity|].
  symmetry. apply Z.leb_le. unfold F32.emax, F32.prec. lia.
Qed.

Lemma to_float_exact (k : N) :
  (0 < k < 16777216)%N ->
  exists (m : positive) (e : Z),
    SizeT.to_float k = S754_finite false m e /\ e <= 0 /\
    Z.pos m = Z.of_N k * 2 ^ (- e).
Proof.
  intros [Hk0 Hk]. destruct k as [|p]; [lia|].
  unfold SizeT.to_float, F32.of_Z. simpl Z.of_N. simpl binary_normalize.
  unfold binary_round, shl_align.
  pose proof (digits2_pos_bounds p) as [Hlo Hhi].
  assert (Z.pos (digits2_pos p) <= 24) as HD.
  { apply digits2_pos_le; [lia|]. change (2 ^ 24) with 16777216. lia. }
  unfold fexp, emin, F32.prec, F32.emax.
  set (D := Z.pos (digits2_pos p)) in *.
  destruct (Z.max (D + 0 - 24) (3 - 128 - 24) - 0) as [|j|j] eqn:Ej.
  - exists p, 0. rewrite binary_round_aux_24_bits by (fold D; lia).
    simpl. repeat split; lia.
  - lia.
  - assert (Z.pos j = 24 - D) as Hj by lia.
    exists (Pos.iter xO p j), (Z.max (D + 0 - 24) (3 - 128 - 24)).
    rewrite binary_round_aux_24_bits
      by (try rewrite digits2_pos_iter_xO; fold D; lia).
    repeat split; [lia|]. rewrite iter_xO_pow. f_equal. f_equal. lia.
Qed.

End IndexToFloat.

(** X13.  In a grid whose cube fits [std::size_t], the conversion of a grid
    coordinate to [float] in [calcVoxelPosInCamViewFrustum] is exact: 0 gives
    +0.0 and a positive coordinate [k] gives a finite positive [float] whose
    value is [k]. *)
Theorem grid_coordinate_converts_exactly (voxel_dim k : N) :
  fits voxel_dim ->
  (k < voxel_dim)%N ->
  (k = 0%N /\ SizeT.to_float k = F32.zero) \/
  exists (m : positive) (e : Z),
    SizeT.to_float k = S754_finite false m e /\ e <= 0 /\
    Z.pos m = Z.of_N k * 2 ^ (- e).
Proof.
  intros Hd Hk. pose proof (fits_small _ Hd).
  destruct (N.eq_dec k 0%N) as [->|Hne].
  - left. split; reflexivity.
  - right. apply to_float_exact. lia.
Qed.

Lemma grid_coordinate_converts_exactly_witness :
  fits 4 /\ (3 < 4)%N /\
  ((3 = 0)%N /\ SizeT.to_float 3 = F32.zero \/
   exists (m : positive) (e : Z),
     SizeT.to_float 3 = S754_finite false m e /\ e <= 0 /\
     Z.pos m = Z.of_N 3 * 2 ^ (- e)).
Proof.
  assert (fits 4) as Hd by reflexivity.
  assert (3 < 4)%N as Hk by reflexivity.
  split; [exact Hd|]. split; [exact Hk|].
  exact (grid_coordinate_converts_exactly 4 3 Hd Hk).
Defined.

(** ** Voxels a camera does not see *)

(** X14.  A voxel whose projection falls outside the image of even one of the
    cameras applied to a constructed object ends at most at -1.0, whatever the
    other cameras saw and in whatever order: it is carved away. *)
Theorem unseen_voxel_is_carved `{Collaborators}
    (bbox : bb_bounds) (voxel_dim : N) (cams : list Camera) (cam : Camera) (i j k : N) :
  fits voxel_dim ->
  (i < voxel_dim)%N -> (j < voxel_dim)%N -> (k < voxel_dim)%N ->
  In cam cams ->
  let o := VoxelCarving_new bbox voxel_dim in
  inside (project cam (calcVoxelPosInCamViewFrustum (params_ o) i j k))
         (Mat_size (getMask cam)) = false ->
  exists (o' : VoxelCarving) (r : float),
    carve_all o cams = Some o' /\
    vox_array_ o' !! N.to_nat (linear_index o i j k) = Some r /\
    F32.leb r F32.minus_one = true /\
    F32.ltb r F32.zero = true.
Proof.
  intros Hd Hi Hj Hk Hcam o Hout.
  pose proof (new_consistent bbox voxel_dim Hd) as Hc. fold o in Hc.
  assert (forall n v, vox_array_ o !! n = Some v -> v = F32.FLT_MAX) as Hfresh
      by (intros n v; apply new_cells).
  assert (voxel_dim_ o = voxel_dim) as Edim by reflexivity.
  clearbody o. rewrite <- Edim in Hi, Hj, Hk.
  pose proof (index_bound _ i j k Hi Hj Hk) as Hb.
  pose proof (buffer_length o Hc) as HL.
  pose proof (linear_index_exact o i j k Hc Hi Hj Hk) as Eidx.
  set (m := N.to_nat (linear_index o i j k)).
  assert (m < length (vox_array_ o))%nat as Hm by (unfold m; rewrite Eidx; lia).
  destruct (lookup_lt_is_Some_2 (vox_array_ o) m Hm) as [v0 Hv0].
  exists (with_vox_array o (imap (running_min o cams) (vox_array_ o))),
         (running_min o cams m v0).
  split; [now apply carve_all_cells|].
  split; [simpl; now rewrite list_lookup_imap, Hv0|].
  rewrite (Hfresh m v0 Hv0), running_min_cell_distance.
  destruct (min_fold_spec (map (fun c => cell_distance o c m) cams) F32.FLT_MAX eq_refl)
    as (Hnan & _ & Hmin).
  set (r := fold_left _ _ _) in *.
  assert (cell_distance o cam m = F32.minus_one) as Edist.
  { unfold cell_distance, m. rewrite N2Nat.id, Eidx.
    destruct (grid_of_index (voxel_dim_ o) i j k Hi Hj Hk) as (-> & -> & ->).
    unfold voxel_distance, contributed_distance. now rewrite Hout. }
  assert (F32.ltb F32.minus_one r = false) as Hlow.
  { rewrite <- Edist. apply Hmin. right. apply in_map_iff. eauto. }
  split.
  - rewrite leb_ltb_eqb. destruct (F32.ltb r F32.minus_one) eqn:E; [reflexivity|].
    simpl. now apply not_ltb_eqb.
  - exact (ltb_cotrans F32.minus_one r F32.zero eq_refl Hnan Hlow).
Qed.

Lemma unseen_voxel_is_carved_witness :
  let o := VoxelCarving_new (bbox10 F32.zero F32.zero) 2 in
  let cam := cam_fg F32.two in
  fits 2 /\ (0 < 2)%N /\ In cam [cam_fg F32.one; cam] /\
  @inside toy (project cam (calcVoxelPosInCamViewFrustum (params_ o) 0 0 0))
          (Mat_size (getMask cam)) = false /\
  exists (o' : VoxelCarving) (r : float),
    carve_all o [cam_fg F32.one; cam] = Some o' /\
    vox_array_ o' !! N.to_nat (linear_index o 0 0 0) = Some r /\
    F32.leb r F32.minus_one = true /\
    F32.ltb r F32.zero = true.
Proof.
  intros o cam.
  assert (fits 2) as Hd by reflexivity.
  assert (0 < 2)%N as H0 by reflexivity.
  assert (In cam [cam_fg F32.one; cam]) as Hin by (right; left; reflexivity).
  assert (@inside toy (project cam (calcVoxelPosInCamViewFrustum (params_ o) 0 0 0))
                  (Mat_size (getMask cam)) = false) as Hout by (vm_compute; reflexivity).
  split; [exact Hd|]. split; [exact H0|]. split; [exact Hin|]. split; [exact Hout|].
  exact (@unseen_voxel_is_carved toy (bbox10 F32.zero F32.zero) 2 _ cam 0 0 0
           Hd H0 H0 H0 Hin Hout).
Defined.
